(** * run_nima.py: the NIMA image-quality scorer

    A shallow embedding of [src/visual-quality-analysis/python/run_nima.py]
    and the properties of its specification.

    The script is a thin wrapper over Keras: it checks its command line,
    builds a MobileNet-based network, loads weights from a file next to the
    script, scores one image and prints [mean,std].  The embedding keeps
    that shape:

    - Python exceptions and the process state (standard output, the calls
      made to the framework) are threaded by a small state-and-error monad;
    - the framework (Keras, PIL, numpy) is a record of functions; those
      that read files or run the network may raise;
    - numbers are generic over an arithmetic ([Arith]), instantiated with
      the binary64 floats of the interpreter and with rounded real
      arithmetic for the error analysis;
    - [os.path] and the [.2f] format are written out, so that runs can be
      evaluated. *)

From Stdlib Require Import ZArith NArith List String Ascii Bool Lia.
From Stdlib Require Import PrimFloat SpecFloat FloatOps FloatAxioms Uint63.
From Stdlib Require Import DecimalString DecimalPos DecimalN.
From Stdlib Require Import Reals Lra.
Import ListNotations.

Set Warnings "-inexact-float".
Local Open Scope string_scope.

(* ================================================================= *)
(** ** Python: exceptions, the process state, the monad *)

Module Py.

(** [sys.exit(n)] raises [SystemExit]; every other exception is kept by
    the name of its class ([IndexError], [OSError], ...). *)
Inductive exn : Type :=
| SystemExit (code : Z)
| Raised (name : string).

Inductive result (X : Type) : Type :=
| Ok (x : X)
| Raise (e : exn).
Arguments Ok {X} x.
Arguments Raise {X} e.

(** What a call into the framework answers: a value, or an exception of
    the framework's own, given by the name of its class. *)
Inductive answer (X : Type) : Type :=
| Returns (x : X)
| Throws (name : string).
Arguments Returns {X} x.
Arguments Throws {X} name.

(** How a file is opened by a framework call. *)
Inductive mode : Type := ReadOnly | Writing.

(** The calls into the framework that touch the outside world, in the
    order in which they are made. *)
Inductive event : Type :=
| BuildBackbone                 (* MobileNet(...) *)
| BuildModel                    (* Model(inputs=..., outputs=...) *)
| LoadWeights (path : string)   (* model.load_weights(path) *)
| LoadImg (path : string)       (* load_img(path, ...) *)
| Predict.                      (* model.predict(x, verbose=0) *)

(** The file an event opens, and how: [load_weights] and [load_img] open
    their file for reading. *)
Definition access (ev : event) : option (string * mode) :=
  match ev with
  | LoadWeights p => Some (p, ReadOnly)
  | LoadImg p => Some (p, ReadOnly)
  | BuildBackbone | BuildModel | Predict => None
  end.

Record world : Type := World {
  stdout : string;        (* everything written to standard output *)
  trace : list event      (* framework calls made so far *)
}.

Definition boot : world := World "" [].

Definition M (X : Type) : Type := world -> result X * world.

Definition ret {X} (x : X) : M X := fun w => (Ok x, w).

Definition bind {X Y} (c : M X) (k : X -> M Y) : M Y :=
  fun w =>
    match c w with
    | (Ok x, w') => k x w'
    | (Raise e, w') => (Raise e, w')
    end.

Definition raise {X} (e : exn) : M X := fun w => (Raise e, w).

(** A framework call: it is recorded, then returns or raises.  The
    framework leaves standard output alone (the one call that could report
    progress, [predict], is made with [verbose=0]). *)
Definition call {X} (ev : event) (a : answer X) : M X :=
  fun w =>
    (match a with
     | Returns x => Ok x
     | Throws name => Raise (Raised name)
     end,
     World (stdout w) (trace w ++ [ev])).

(** [print(s)]: the text and one line terminator. *)
Definition newline : string := String (ascii_of_nat 10) "".

Definition print (s : string) : M unit :=
  fun w => (Ok tt, World (stdout w ++ s ++ newline) (trace w)).

(** [sys.exit(code)] *)
Definition sys_exit {X} (code : Z) : M X := raise (SystemExit code).

(** [xs[i]] on a list *)
Definition index {X} (xs : list X) (i : nat) : M X :=
  match nth_error xs i with
  | Some x => ret x
  | None => raise (Raised "IndexError")
  end.

(** What the operating system sees of one run of the interpreter. *)
Record outcome : Type := Outcome {
  status : Z;               (* exit status *)
  printed : string;         (* standard output *)
  calls : list event;       (* framework calls made *)
  uncaught : option exn     (* the exception that ended the run, if any *)
}.

(** The interpreter runs the script in a fresh process; an uncaught
    [SystemExit(n)] gives status [n], any other uncaught exception a
    traceback on standard error and status 1. *)
Definition python (script : M unit) : outcome :=
  match script boot with
  | (Ok _, w) => Outcome 0 (stdout w) (trace w) None
  | (Raise (SystemExit c), w) => Outcome c (stdout w) (trace w) (Some (SystemExit c))
  | (Raise (Raised n), w) => Outcome 1 (stdout w) (trace w) (Some (Raised n))
  end.

End Py.

Import Py.

Declare Scope py_scope.
Delimit Scope py_scope with py.
Notation "x <- c ;; k" := (bind c (fun x => k))
  (at level 61, c at next level, right associativity) : py_scope.
Notation "c ;; k" := (bind c (fun _ => k))
  (at level 61, right associativity) : py_scope.

(* ================================================================= *)
(** ** [os.path] on a POSIX system *)

Module posixpath.

Definition slash : ascii := "/"%char.

Definition chars (s : string) : list ascii := list_ascii_of_string s.
Definition str (l : list ascii) : string := string_of_list_ascii l.

Definition startswith_sep (s : string) : bool :=
  match s with
  | String c _ => Ascii.eqb c slash
  | EmptyString => false
  end.

Fixpoint endswith_sep (s : string) : bool :=
  match s with
  | EmptyString => false
  | String c EmptyString => Ascii.eqb c slash
  | String _ r => endswith_sep r
  end.

(** [isabs(s)]: [s.startswith('/')] *)
Definition isabs (s : string) : bool := startswith_sep s.

(** One step of the loop of [join(a, *p)]. *)
Definition join_step (path b : string) : string :=
  if startswith_sep b then b
  else if (String.eqb path "" || endswith_sep path)%bool then path ++ b
  else path ++ "/" ++ b.

Definition join (a : string) (p : list string) : string :=
  fold_left join_step p a.

Fixpoint dropwhile (f : ascii -> bool) (l : list ascii) : list ascii :=
  match l with
  | [] => []
  | c :: r => if f c then dropwhile f r else l
  end.

Definition is_sep (c : ascii) : bool := Ascii.eqb c slash.

(** [p[:p.rfind('/') + 1]] *)
Definition upto_last_sep (p : string) : string :=
  str (rev (dropwhile (fun c => negb (is_sep c)) (rev (chars p)))).

(** [s.rstrip('/')] *)
Definition rstrip_sep (s : string) : string :=
  str (rev (dropwhile is_sep (rev (chars s)))).

(** [dirname(p)] *)
Definition dirname (p : string) : string :=
  let head := upto_last_sep p in
  if (negb (String.eqb head "") && negb (forallb is_sep (chars head)))%bool
  then rstrip_sep head
  else head.

(** [path.split('/')] *)
Fixpoint split_sep (cur : list ascii) (l : list ascii) : list string :=
  match l with
  | [] => [str (rev cur)]
  | c :: r => if is_sep c then str (rev cur) :: split_sep [] r
              else split_sep (c :: cur) r
  end.

(** The loop of [normpath]; [new_comps] is kept with its last element
    first. *)
Fixpoint norm_comps (initial_slashes : nat) (comps new_comps : list string)
  : list string :=
  match comps with
  | [] => rev new_comps
  | comp :: rest =>
      if (String.eqb comp "" || String.eqb comp ".")%bool
      then norm_comps initial_slashes rest new_comps
      else if (negb (String.eqb comp "..")
               || ((initial_slashes =? 0)%nat
                   && match new_comps with [] => true | _ => false end)
               || match new_comps with
                  | last :: _ => String.eqb last ".."
                  | [] => false
                  end)%bool
      then norm_comps initial_slashes rest (comp :: new_comps)
      else norm_comps initial_slashes rest (tl new_comps)
  end.

(** ['/'.join(comps)] *)
Fixpoint sep_join (comps : list string) : string :=
  match comps with
  | [] => ""
  | [c] => c
  | c :: r => c ++ "/" ++ sep_join r
  end.

Definition startswith2 (s : string) : bool :=
  match s with
  | String a (String b _) => (is_sep a && is_sep b)%bool
  | _ => false
  end.

Definition startswith3 (s : string) : bool :=
  match s with
  | String a (String b (String c _)) => (is_sep a && is_sep b && is_sep c)%bool
  | _ => false
  end.

Fixpoint seps (n : nat) : string :=
  match n with
  | O => ""
  | S k => String slash (seps k)
  end.

(** [normpath(path)] *)
Definition normpath (path : string) : string :=
  if String.eqb path "" then "."
  else
    let initial_slashes :=
      if startswith_sep path
      then if (startswith2 path && negb (startswith3 path))%bool then 2%nat
           else 1%nat
      else 0%nat in
    let comps := norm_comps initial_slashes (split_sep [] (chars path)) [] in
    let path' := seps initial_slashes ++ sep_join comps in
    if String.eqb path' "" then "." else path'.

(** [abspath(path)], in a process whose [os.getcwd()] is [cwd] *)
Definition abspath (cwd path : string) : string :=
  normpath (if isabs path then path else join cwd [path]).

End posixpath.

Import posixpath.

(* ================================================================= *)
(** ** Numbers *)

(** The arithmetic the two score statistics are computed in. *)
Class Arith (A : Type) : Type := {
  num_zero : A;
  num_of_nat : nat -> A;        (* a bucket value as a number *)
  num_add : A -> A -> A;
  num_sub : A -> A -> A;
  num_mul : A -> A -> A;
  num_sqrt : A -> A
}.

(** The [.2f] presentation of a number. *)
Class Format (A : Type) : Type := {
  fmt2f : A -> string
}.

(** *** binary64, the [float] of the interpreter *)

Module float64.

Definition of_nat (n : nat) : float :=
  PrimFloat.of_uint63 (Uint63.of_Z (Z.of_nat n)).

(** A float is finite when it is neither a NaN nor an infinity. *)
Definition finite (x : float) : bool :=
  match Prim2SF x with
  | S754_zero _ | S754_finite _ _ _ => true
  | S754_infinity _ | S754_nan => false
  end.

(** [n / d] rounded to the nearest integer, ties to even ([0 < d]). *)
Definition round_half_even (n d : Z) : Z :=
  let q := (n / d)%Z in
  let r := (n mod d)%Z in
  match (2 * r ?= d)%Z with
  | Lt => q
  | Gt => (q + 1)%Z
  | Eq => if Z.even q then q else (q + 1)%Z
  end.

(** [m * 2^e * 100] rounded to the nearest integer, ties to even: the
    magnitude of a finite float counted in hundredths. *)
Definition hundredths (m : positive) (e : Z) : Z :=
  match e with
  | Z0 => 100 * Z.pos m
  | Zpos p => 100 * Z.pos m * 2 ^ Z.pos p
  | Zneg p => round_half_even (100 * Z.pos m) (2 ^ Z.pos p)
  end.

Definition digit (n : Z) : ascii := ascii_of_nat (48 + Z.to_nat (n mod 10)).

(** The decimal digits of a natural number, without leading zeros. *)
Definition decimal (n : Z) : string :=
  NilZero.string_of_uint (N.to_uint (Z.to_N n)).

(** [h] hundredths written with two digits after the point. *)
Definition fixed2 (h : Z) : string :=
  decimal (h / 100) ++ "." ++ String (digit (h / 10)) (String (digit h) "").

Definition sign (s : bool) : string := if s then "-" else "".

(** [format(x, '.2f')]: the exact value of [x] correctly rounded to two
    decimals; [nan] and [inf] are spelled out. *)
Definition format_2f (x : float) : string :=
  match Prim2SF x with
  | S754_nan => "nan"
  | S754_infinity s => sign s ++ "inf"
  | S754_zero s => sign s ++ "0.00"
  | S754_finite s m e => sign s ++ fixed2 (hundredths m e)
  end.

End float64.

#[global] Instance float_arith : Arith float := {|
  num_zero := PrimFloat.zero;
  num_of_nat := float64.of_nat;
  num_add := PrimFloat.add;
  num_sub := PrimFloat.sub;
  num_mul := PrimFloat.mul;
  num_sqrt := PrimFloat.sqrt
|}.

#[global] Instance float_format : Format float := {|
  fmt2f := float64.format_2f
|}.

(** *** Rounded real arithmetic

    The standard model of floating-point arithmetic: every operation
    returns the exact real result passed through a rounding [rnd].  Bucket
    values are small integers and are not rounded.  With [rnd] the
    identity this is exact real arithmetic. *)

Definition rounded (rnd : R -> R) : Arith R := {|
  num_zero := 0%R;
  num_of_nat := INR;
  num_add := fun x y => rnd (x + y)%R;
  num_sub := fun x y => rnd (x - y)%R;
  num_mul := fun x y => rnd (x * y)%R;
  num_sqrt := fun x => rnd (sqrt x)
|}.

(** [rnd] has relative error at most [u], as rounding to nearest in
    binary64 has with [u = 2^-53] on the values met here, away from
    overflow and underflow. *)
Definition rounding (rnd : R -> R) (u : R) : Prop :=
  (0 <= u)%R /\ forall x : R, (Rabs (rnd x - x) <= u * Rabs x)%R.

(* ================================================================= *)
(** ** [utils.score_utils] *)

Module score_utils.
Section Scores.

Context {A : Type} {arith : Arith A}.

(** The script imports [mean_score] and [std_score] from the module
    [utils/score_utils.py] of this repository, which is not among the
    sources at hand.  The module is written here from the formulas of the
    specification, in the arithmetic [A]. *)

(** Modelled from the spec: the bucket values of the absent module
    [utils/score_utils.py], "i = 1..10". *)
Definition buckets : list nat := seq 1 10.

(** Modelled from the spec: the sum "Σ" of the absent module, taken from
    left to right and starting from the first term. *)
Definition total (xs : list A) : A :=
  match xs with
  | [] => num_zero
  | x :: r => fold_left num_add r x
  end.

(** Modelled from the spec: "p[i-1]" of the absent module, zero outside
    the distribution. *)
Definition prob (p : list A) (i : nat) : A := nth (i - 1) p num_zero.

(** Modelled from the spec: [mean_score] of the absent module
    [utils/score_utils.py]; "mean = Σ(i=1..10) i · p[i-1]". *)
Definition mean_score (p : list A) : A :=
  total (map (fun i => num_mul (num_of_nat i) (prob p i)) buckets).

(** Modelled from the spec: the square "(...)²" of the absent module, one
    multiplication. *)
Definition square (x : A) : A := num_mul x x.

(** Modelled from the spec: the variance inside [std_score] of the absent
    module; "variance = Σ(i=1..10) (i − mean)² · p[i-1]". *)
Definition variance (p : list A) : A :=
  let mean := mean_score p in
  total (map (fun i => num_mul (square (num_sub (num_of_nat i) mean)) (prob p i))
             buckets).

(** Modelled from the spec: [std_score] of the absent module
    [utils/score_utils.py]; "std = sqrt(variance)". *)
Definition std_score (p : list A) : A := num_sqrt (variance p).

End Scores.
End score_utils.

Import score_utils.

(* ================================================================= *)
(** ** Keras *)

Module keras.

(** The arguments of [MobileNet(...)]. *)
Record mobilenet_args : Type := {
  input_shape : list (option nat);
  include_top : bool;
  pooling : option string;
  weights : option string
}.

Inductive layer : Type :=
| MobileNetLayers (a : mobilenet_args)
| DropoutLayer (rate : float)
| DenseLayer (units : nat) (activation : string).

(** A symbolic tensor of the functional API: the input placeholder, or
    a layer called on a tensor. *)
Inductive tensor : Type :=
| Input (shape : list (option nat))
| Call (l : layer) (x : tensor).

Record base_model : Type := {
  input : tensor;
  output : tensor
}.

Record graph : Type := {
  inputs : tensor;
  outputs : tensor
}.

(** The layers met from the input to a tensor. *)
Fixpoint layers (t : tensor) : list layer :=
  match t with
  | Input _ => []
  | Call l x => layers x ++ [l]
  end.

(** The placeholder a tensor is computed from. *)
Fixpoint source (t : tensor) : tensor :=
  match t with
  | Input s => Input s
  | Call _ x => source x
  end.

(** The framework, the image library and numpy, as far as the script
    uses them.  [A] is the type of the numbers a prediction holds. *)
Record framework (A : Type) : Type := {
  weight_values : Type;
  image : Type;
  array : Type;
  (** deserialise a weights file for a network *)
  read_weights : graph -> string -> answer weight_values;
  (** open, decode and resize an image file *)
  read_img : string -> nat * nat -> answer image;
  to_array : image -> array;
  add_axis : array -> nat -> array;
  normalise : array -> array;
  (** one forward pass on a batch *)
  forward : graph -> option weight_values -> array -> answer (list (list A))
}.
Arguments weight_values {A} f.
Arguments image {A} f.
Arguments array {A} f.
Arguments read_weights {A} f _ _.
Arguments read_img {A} f _ _.
Arguments to_array {A} f _.
Arguments add_axis {A} f _ _.
Arguments normalise {A} f _.
Arguments forward {A} f _ _ _.

(** A [Model] object: its network and the weights loaded into it. *)
Record model {A : Type} (K : framework A) : Type := {
  net : graph;
  loaded : option (weight_values K);
  loaded_from : option string
}.
Arguments net {A K} m.
Arguments loaded {A K} m.
Arguments loaded_from {A K} m.

End keras.

Import keras.

(* ================================================================= *)
(** ** The script *)

(** The process the script runs in. *)
Record process : Type := {
  argv : list string;      (* sys.argv *)
  cwd : string;            (* os.getcwd() *)
  file : string            (* __file__ *)
}.

Module run_nima.
Section Script.

Context {A : Type} {arith : Arith A} {format : Format A}.
Variable K : framework A.

Local Open Scope py_scope.

(** *** The framework calls, as the script makes them *)

Definition MobileNet (input_shape : list (option nat)) (include_top : bool)
    (pooling weights : option string) : M base_model :=
  let a := Build_mobilenet_args input_shape include_top pooling weights in
  call BuildBackbone
       (Returns {| input := Input input_shape;
              output := Call (MobileNetLayers a) (Input input_shape) |}).

Definition Dropout (rate : float) (x : tensor) : tensor :=
  Call (DropoutLayer rate) x.

Definition Dense (units : nat) (activation : string) (x : tensor) : tensor :=
  Call (DenseLayer units activation) x.

Definition Model (inputs outputs : tensor) : M (model K) :=
  call BuildModel
       (Returns {| net := {| inputs := inputs; outputs := outputs |};
              loaded := None;
              loaded_from := None |}).

(** [model.load_weights(path)] updates the model in place; here the
    updated model is returned. *)
Definition load_weights (m : model K) (path : string) : M (model K) :=
  w <- call (LoadWeights path) (read_weights K (net m) path) ;;
  ret {| net := net m; loaded := Some w; loaded_from := Some path |}.

Definition load_img (path : string) (target_size : nat * nat) : M (image K) :=
  call (LoadImg path) (read_img K path target_size).

Definition predict (m : model K) (x : array K) : M (list (list A)) :=
  call Predict (forward K (net m) (loaded m) x).

(** *** [load_nima_model] *)

Definition load_nima_model (weights_path : string) : M (model K) :=
  base_model <- MobileNet [None; None; Some 3%nat] false (Some "avg") None ;;
  let x := Dropout 0.75%float (output base_model) in
  let x := Dense 10 "softmax" x in
  model <- Model (input base_model) x ;;
  model <- load_weights model weights_path ;;
  ret model.

(** *** [evaluate_image] *)

Definition evaluate_image (image_path : string) (model : model K) : M (A * A) :=
  img <- load_img image_path (224%nat, 224%nat) ;;
  let x := to_array K img in
  let x := add_axis K x 0 in
  let x := normalise K x in
  batch <- predict model x ;;
  scores <- index batch 0 ;;
  let mean := mean_score scores in
  let std := std_score scores in
  ret (mean, std).

(** *** [main] *)

Definition usage : string := "Usage: python run_nima.py <image_path>".

(** The score line, without its terminator. *)
Definition score_line (mean std : A) : string :=
  fmt2f mean ++ "," ++ fmt2f std.

Definition main (P : process) : M unit :=
  (if negb (List.length (argv P) =? 2)%nat
   then print usage ;; sys_exit 1
   else ret tt) ;;
  image_path <- index (argv P) 1 ;;
  let BASE_DIR := dirname (abspath (cwd P) (file P)) in
  let weights_path := join BASE_DIR ["model"; "mobilenet_weights.h5"] in
  model <- load_nima_model weights_path ;;
  ms <- evaluate_image image_path model ;;
  let (mean_score_value, std_score_value) := ms in
  print (score_line mean_score_value std_score_value).

(** One run of [python run_nima.py ...]. *)
Definition run (P : process) : outcome := python (main P).

(** The weights file of a process: the path [main] hands to
    [load_nima_model]. *)
Definition weights_file (P : process) : string :=
  join (dirname (abspath (cwd P) (file P))) ["model"; "mobilenet_weights.h5"].

End Script.
End run_nima.

Import run_nima.

(* ================================================================= *)
(** ** Vocabulary of the specification *)

(** The topology the model loader is specified to build. *)
Definition nima_layers : list layer :=
  [ MobileNetLayers {| input_shape := [None; None; Some 3%nat];
                       include_top := false;
                       pooling := Some "avg";
                       weights := None |};
    DropoutLayer 0.75%float;
    DenseLayer 10 "softmax" ].

(** A string of decimal digits. *)
Definition is_digit (c : ascii) : bool :=
  (48 <=? nat_of_ascii c)%nat && (nat_of_ascii c <=? 57)%nat.

Fixpoint all_digits (s : string) : bool :=
  match s with
  | EmptyString => true
  | String c r => is_digit c && all_digits r
  end.

(** A number written with exactly two digits after the decimal point: an
    optional minus sign, at least one digit, a point, two digits. *)
Definition two_decimals (s : string) : Prop :=
  exists (neg : bool) (whole : string) (d1 d2 : ascii),
    s = float64.sign neg ++ whole ++ "." ++ String d1 (String d2 "")
    /\ whole <> "" /\ all_digits whole = true
    /\ is_digit d1 = true /\ is_digit d2 = true.

(** Exactly one line [<mean>,<std>]: two such numbers, one comma, one line
    terminator, nothing else. *)
Definition score_output (out : string) : Prop :=
  exists m s : string,
    out = m ++ "," ++ s ++ newline /\ two_decimals m /\ two_decimals s.

(** The exact sum of a list of real numbers. *)
Definition rsum (xs : list R) : R := fold_right Rplus 0%R xs.

(** A probability distribution over the ten buckets, in real numbers. *)
Definition distribution (p : list R) : Prop :=
  List.length p = 10%nat /\ Forall (fun x => (0 <= x)%R) p /\ rsum p = 1%R.

(** The exact weighted sum [Σ i·p[i-1]], [i] in 1..10. *)
Definition exact_mean (p : list R) : R :=
  rsum (map (fun i => (INR i * nth (i - 1) p 0)%R) buckets).

(** The exact [Σ (i − m)²·p[i-1]], [i] in 1..10. *)
Definition exact_variance (m : R) (p : list R) : R :=
  rsum (map (fun i => ((INR i - m) * (INR i - m) * nth (i - 1) p 0)%R) buckets).

(** The relative error [k] roundings of relative error [u] can build up. *)
Definition growth (u : R) (k : nat) : R := ((1 + u) ^ k - 1)%R.

(** [y] approximates the non-negative [x] within the error of [k]
    roundings. *)
Definition close (u : R) (k : nat) (y x : R) : Prop :=
  (0 <= x)%R /\ (Rabs (y - x) <= growth u k * x)%R.

(** The unit roundoff of binary64 with rounding to nearest. *)
Definition binary64_unit_roundoff : R := (/ 2 ^ 53)%R.

(** The network [load_nima_model] hands to [load_weights]. *)
Definition nima_network : graph :=
  let shape := [None; None; Some 3%nat] in
  {| inputs := Input shape;
     outputs :=
       Call (DenseLayer 10 "softmax")
         (Call (DropoutLayer 0.75%float)
            (Call (MobileNetLayers (Build_mobilenet_args shape false (Some "avg") None))
               (Input shape))) |}.

(** The batch [evaluate_image] hands to [predict] for a decoded image. *)
Definition prepared {A : Type} (K : framework A) (img : image K) : array K :=
  normalise K (add_axis K (to_array K img) 0).

(** The directory that contains the running script. *)
Definition script_directory (P : process) : string :=
  dirname (abspath (cwd P) (file P)).

(** The same process started from another working directory. *)
Definition started_from (dir : string) (P : process) : process :=
  {| argv := argv P; cwd := dir; file := file P |}.

(** The uniform distribution over the ten buckets, in binary64. *)
Definition uniform : list float := repeat 0.1%float 10.

(** The same with the binary32 number nearest to 0.1 in each bucket, as a
    network computing in single precision predicts it. *)
Definition uniform32 : list float := repeat 0x1.99999ap-4%float 10.

(** The distribution concentrated on bucket [k], in binary64. *)
Definition point_mass (k : nat) : list float :=
  map (fun i => if (i =? k)%nat then 1%float else 0%float) buckets.

(** The process ends with an uncaught exception of the given class. *)
Definition ends_with (o : outcome) (name : string) : Prop :=
  uncaught o = Some (Raised name) /\ status o = 1%Z.

(** The calls of a run that goes all the way, in the order of the script. *)
Definition full_calls (P : process) : list event :=
  [BuildBackbone; BuildModel; LoadWeights (weights_file P);
   LoadImg (nth 1 (argv P) ""); Predict].

(** How often a character occurs in a string. *)
Fixpoint count_char (c : ascii) (s : string) : nat :=
  match s with
  | EmptyString => 0
  | String x r => (if Ascii.eqb x c then 1 else 0) + count_char c r
  end.

(** An entry of a score distribution of the data model: a binary64 number
    between 0 and 1. *)
Definition probability (x : float) : bool := ((0 <=? x) && (x <=? 1))%float.

(** A row of the data model, as far as the printed line depends on it: ten
    such entries (non-negative entries that sum to 1 are of this kind). *)
Definition probabilities (p : list float) : bool :=
  (List.length p =? 10)%nat && forallb probability p.

(** A zero, or a finite number of magnitude below [2^N]. *)
Definition below (N : Z) (x : spec_float) : Prop :=
  match x with
  | S754_zero _ => True
  | S754_finite _ m e => (Z.pos (digits2_pos m) + e <= N)%Z
  | S754_infinity _ | S754_nan => False
  end.

(** A zero, or a finite number that is positive. *)
Definition not_negative (x : spec_float) : Prop :=
  match x with
  | S754_zero _ => True
  | S754_finite s _ _ => s = false
  | S754_infinity _ | S754_nan => False
  end.

(** The zero of sign [s], or a finite number of sign [s] below [2^N]. *)
Definition signed (s : bool) (N : Z) (x : spec_float) : Prop :=
  x = S754_zero s
  \/ exists m e, x = S754_finite s m e /\ (Z.pos (digits2_pos m) + e <= N)%Z.

(** The same two properties of a binary64 number. *)
Definition small (N : Z) (x : float) : Prop := below N (Prim2SF x).

Definition pos0 (x : float) : Prop := not_negative (Prim2SF x).

(* ================================================================= *)
(** ** Sample runs *)

(** A framework given by its three answers: to reading a weights file, to
    reading an image file, to a forward pass. *)
Definition answering {A : Type} (weights img : answer unit)
    (batch : answer (list (list A))) : framework A := {|
  weight_values := unit;
  image := unit;
  array := unit;
  read_weights := fun _ _ => weights;
  read_img := fun _ _ => img;
  to_array := fun x => x;
  add_axis := fun x _ => x;
  normalise := fun x => x;
  forward := fun _ _ _ => batch
|}.

(** The uniform distribution, in real numbers. *)
Definition tenths : list R := repeat (1 / 10)%R 10.

(** A rounding that always errs upwards by the relative error [u]. *)
Definition biased (u : R) (x : R) : R := (x * (1 + u))%R.

(** A framework in which both files are valid and the network predicts
    the given row. *)
Definition predicting {A : Type} (scores : list A) : framework A :=
  answering (Returns tt) (Returns tt) (Returns [scores]).

(** A network whose weights make it predict NaN in every bucket. *)
Definition predicting_nan : framework float :=
  predicting (repeat PrimFloat.nan 10).

(** [python /opt/nima/run_nima.py photo.png], started in [/home/user]. *)
Definition one_argument : process := {|
  argv := ["/opt/nima/run_nima.py"; "photo.png"];
  cwd := "/home/user";
  file := "/opt/nima/run_nima.py"
|}.

(** [python /opt/nima/run_nima.py], started in [/home/user]. *)
Definition no_argument : process := {|
  argv := ["/opt/nima/run_nima.py"];
  cwd := "/home/user";
  file := "/opt/nima/run_nima.py"
|}.

(** A model as [load_nima_model] returns it in a sample framework. *)
Definition sample_model {A : Type} (K : framework A) (wv : weight_values K)
  : model K :=
  {| net := nima_network; loaded := Some wv;
     loaded_from := Some "/opt/nima/model/mobilenet_weights.h5" |}.

(* ================================================================= *)
(** ** How the script runs *)

Section Runs.

Context {A : Type} {arith : Arith A} {format : Format A}.
Variable K : framework A.

Lemma load_nima_model_run (weights_path : string) (w : world) :
  load_nima_model K weights_path w =
  let w' := World (stdout w)
              (trace w ++ [BuildBackbone; BuildModel; LoadWeights weights_path]) in
  match read_weights K nima_network weights_path with
  | Returns wv =>
      (Ok {| net := nima_network; loaded := Some wv;
             loaded_from := Some weights_path |}, w')
  | Throws name => (Raise (Raised name), w')
  end.
Proof.
  unfold load_nima_model, MobileNet, Model, load_weights, bind, call, ret.
  cbn [stdout trace net input output].
  change (Dense 10 "softmax" (Dropout 0.75 _)) with (outputs nima_network).
  change {| inputs := Input [None; None; Some 3%nat];
            outputs := outputs nima_network |} with nima_network.
  rewrite <- !app_assoc. cbn [app].
  destruct (read_weights K nima_network weights_path); reflexivity.
Qed.

Lemma evaluate_image_run (image_path : string) (m : model K) (w : world) :
  evaluate_image K image_path m w =
  match read_img K image_path (224%nat, 224%nat) with
  | Throws name =>
      (Raise (Raised name), World (stdout w) (trace w ++ [LoadImg image_path]))
  | Returns img =>
      let w' := World (stdout w) (trace w ++ [LoadImg image_path; Predict]) in
      match forward K (net m) (loaded m) (prepared K img) with
      | Throws name => (Raise (Raised name), w')
      | Returns [] => (Raise (Raised "IndexError"), w')
      | Returns (scores :: _) => (Ok (mean_score scores, std_score scores), w')
      end
  end.
Proof.
  unfold evaluate_image, load_img, predict, index, bind, call, ret, raise, prepared.
  cbn [stdout trace].
  destruct (read_img K image_path (224%nat, 224%nat)) as [img|name]; [|reflexivity].
  rewrite <- !app_assoc. cbn [app].
  destruct (forward K (net m) (loaded m) _) as [[|scores rest]|name]; reflexivity.
Qed.

(** A run with a wrong number of arguments. *)
Lemma run_usage (P : process) :
  List.length (argv P) <> 2%nat ->
  run K P = Outcome 1 (usage ++ newline) [] (Some (SystemExit 1)).
Proof.
  intros Hlen. unfold run, main, python, bind, print, sys_exit, raise.
  destruct (Nat.eqb_spec (List.length (argv P)) 2) as [E|_]; [contradiction|].
  reflexivity.
Qed.

(** A run with exactly one argument. *)
Lemma run_scoring (P : process) (script image_path : string) :
  argv P = [script; image_path] ->
  run K P =
  let wf := weights_file P in
  let built := [BuildBackbone; BuildModel; LoadWeights wf] in
  match read_weights K nima_network wf with
  | Throws name => Outcome 1 "" built (Some (Raised name))
  | Returns wv =>
      match read_img K image_path (224%nat, 224%nat) with
      | Throws name =>
          Outcome 1 "" (built ++ [LoadImg image_path])%list (Some (Raised name))
      | Returns img =>
          let all := (built ++ [LoadImg image_path; Predict])%list in
          match forward K nima_network (Some wv) (prepared K img) with
          | Throws name => Outcome 1 "" all (Some (Raised name))
          | Returns [] => Outcome 1 "" all (Some (Raised "IndexError"))
          | Returns (scores :: _) =>
              Outcome 0
                (score_line (mean_score scores) (std_score scores) ++ newline)
                all None
          end
      end
  end.
Proof.
  intros Hargv. unfold run, main, python.
  rewrite Hargv. cbn [List.length Nat.eqb negb].
  unfold bind at 1. unfold ret at 1.
  unfold bind at 1. unfold index at 1. cbn [nth_error]. unfold ret at 1.
  fold (weights_file P).
  unfold bind at 1. rewrite load_nima_model_run. cbn [boot stdout trace app].
  destruct (read_weights K nima_network (weights_file P)) as [wv|name];
    [|reflexivity].
  unfold bind at 1. rewrite evaluate_image_run. cbn [stdout trace app net loaded].
  destruct (read_img K image_path (224%nat, 224%nat)) as [img|name];
    [|reflexivity].
  destruct (forward K nima_network (Some wv) (prepared K img))
    as [[|scores rest]|name]; reflexivity.
Qed.

End Runs.

(** Three runs, evaluated. *)
Example run_uniform :
  run (predicting uniform) one_argument
  = Outcome 0 ("5.50,2.87" ++ newline)
      [BuildBackbone; BuildModel;
       LoadWeights "/opt/nima/model/mobilenet_weights.h5";
       LoadImg "photo.png"; Predict]
      None.
Proof. vm_compute. reflexivity. Qed.

Example run_no_argument :
  run (predicting uniform) no_argument
  = Outcome 1 ("Usage: python run_nima.py <image_path>" ++ newline) []
      (Some (SystemExit 1)).
Proof. vm_compute. reflexivity. Qed.

Example run_missing_weights :
  run (A := float)
      (answering (Throws "OSError") (Returns tt) (Returns [uniform])) one_argument
  = Outcome 1 ""
      [BuildBackbone; BuildModel;
       LoadWeights "/opt/nima/model/mobilenet_weights.h5"]
      (Some (Raised "OSError")).
Proof. vm_compute. reflexivity. Qed.

(* ================================================================= *)
(** ** Strings *)

Lemma append_assoc (a b c : string) : (a ++ b) ++ c = a ++ (b ++ c).
Proof. induction a as [|x a IH]; cbn; [reflexivity | now rewrite IH]. Qed.

(** A number with two decimals starts with a minus sign or with a digit. *)
Lemma two_decimals_head (s : string) :
  two_decimals s ->
  exists c r, s = String c r /\ (c = "-"%char \/ is_digit c = true).
Proof.
  intros (neg & whole & d1 & d2 & -> & Hne & Hall & _).
  destruct neg; cbn.
  - eexists _, _. split; [reflexivity | now left].
  - destruct whole as [|c whole]; [contradiction|].
    cbn in Hall. apply andb_true_iff in Hall as [Hc _].
    eexists _, _. split; [reflexivity | now right].
Qed.

Lemma score_output_head (out : string) :
  score_output out ->
  exists c r, out = String c r /\ (c = "-"%char \/ is_digit c = true).
Proof.
  intros (m & s & -> & Hm & _).
  destruct (two_decimals_head m Hm) as (c & r & -> & Hc).
  cbn. eauto.
Qed.

(* ================================================================= *)
(** ** The command line *)

Section CommandLine.

Context {A : Type} {arith : Arith A} {format : Format A}.
Variable K : framework A.

(** C3: a run whose [argv] does not have exactly two entries (the script
    name and one argument) prints the usage message to standard output
    and exits with status 1; it prints no score line, and no call into
    the framework is made: no network is built, no file is opened. *)
Theorem usage_error (P : process) :
  List.length (argv P) <> 2%nat ->
  let o := run K P in
  printed o = usage ++ newline
  /\ status o = 1%Z
  /\ ~ score_output (printed o)
  /\ ~ In BuildBackbone (calls o) /\ ~ In BuildModel (calls o)
  /\ (forall p, ~ In (LoadWeights p) (calls o))
  /\ (forall p, ~ In (LoadImg p) (calls o)).
Proof.
  intros Hlen o. subst o. rewrite (run_usage K P Hlen). cbn [printed status calls].
  repeat split; try (intros; apply in_nil).
  intros Hs. apply score_output_head in Hs as (c & r & E & [Hc|Hc]).
  - cbn in E. injection E as E _. subst c. discriminate Hc.
  - cbn in E. injection E as E _. subst c. discriminate Hc.
Qed.

End CommandLine.

(* ================================================================= *)
(** ** The model loader *)

Section Loader.

Context {A : Type}.
Variable K : framework A.

(** C8: for every weights path, [load_nima_model] builds the network
    MobileNet backbone (no top, global average pooling), dropout 0.75,
    dense 10 with softmax, from the backbone's input; it then reads the
    weights file at the given path for that network and, when the
    framework accepts it, returns the model holding these weights, which
    [predict] then runs; when the framework raises, so does the loader. *)
Theorem load_nima_model_topology (weights_path : string) (w : world) :
  let w' := World (stdout w)
              (trace w ++ [BuildBackbone; BuildModel; LoadWeights weights_path]) in
  match read_weights K nima_network weights_path with
  | Returns wv =>
      exists m : model K,
        load_nima_model K weights_path w = (Ok m, w')
        /\ layers (outputs (net m)) = nima_layers
        /\ inputs (net m) = source (outputs (net m))
        /\ net m = nima_network
        /\ loaded m = Some wv
        /\ loaded_from m = Some weights_path
        /\ forall x, predict K m x = call Predict (forward K nima_network (Some wv) x)
  | Throws name =>
      load_nima_model K weights_path w = (Raise (Raised name), w')
  end.
Proof.
  intros w'. subst w'. rewrite load_nima_model_run. cbv zeta.
  destruct (read_weights K nima_network weights_path) as [wv|name];
    [|reflexivity].
  eexists. split; [reflexivity|].
  cbn [net loaded loaded_from]. repeat split; reflexivity.
Qed.

End Loader.

(* ================================================================= *)
(** ** Failures *)

Lemma two_entries {X : Type} (l : list X) :
  List.length l = 2%nat -> exists a b, l = [a; b].
Proof.
  destruct l as [|a [|b [|c l]]]; cbn; intros E; try discriminate.
  now exists a, b.
Qed.

(** Splitting a known list of calls around one of them. *)
Ltac split_calls E :=
  repeat match type of E with
         | (?pre ++ _ :: _)%list = _ =>
             destruct pre; cbn [app] in E; try discriminate E;
             try (injection E as ? E; subst)
         end.

Section Failures.

Context {A : Type} {arith : Arith A} {format : Format A}.
Variable K : framework A.


(** C10: in every run the image file is opened only after the network
    has been built and the weights file has been read successfully; and
    when the weights file is invalid, the run ends with the
    weight-loading error and the image file is never opened, whatever
    the image file is. *)
Theorem weights_before_image (P : process) :
  let o := run K P in
  (forall pre image_path post,
      calls o = (pre ++ LoadImg image_path :: post)%list ->
      In BuildBackbone pre /\ In BuildModel pre
      /\ In (LoadWeights (weights_file P)) pre
      /\ exists wv,
           read_weights K nima_network (weights_file P) = Returns wv)
  /\ (forall name,
        List.length (argv P) = 2%nat ->
        read_weights K nima_network (weights_file P) = Throws name ->
        ends_with o name /\ forall image_path, ~ In (LoadImg image_path) (calls o)).
Proof.
  intros o. subst o. unfold ends_with.
  destruct (Nat.eq_dec (List.length (argv P)) 2) as [Hlen|Hlen].
  - destruct (two_entries _ Hlen) as (script & image_path & Hargv).
    rewrite (run_scoring K P script image_path Hargv). cbv zeta.
    destruct (read_weights K nima_network (weights_file P)) as [wv|n1] eqn:Ew.
    + split; [|discriminate].
      intros pre ip post E.
      assert (Hcalls : exists tl,
                 ([BuildBackbone; BuildModel; LoadWeights (weights_file P)]
                    ++ LoadImg image_path :: tl)%list
                 = (pre ++ LoadImg ip :: post)%list).
      { destruct (read_img K image_path (224%nat, 224%nat)) as [img|n2].
        - destruct (forward K nima_network (Some wv) (prepared K img))
            as [[|scores rest]|n3]; cbn [calls app] in E;
            eexists; rewrite <- E; reflexivity.
        - cbn [calls app] in E. eexists; rewrite <- E; reflexivity. }
      destruct Hcalls as (tl & E'). cbn [app] in E'. symmetry in E'.
      split_calls E'; cbn [In]; repeat split; eauto 10.
    + cbn [status printed uncaught calls].
      split.
      * intros pre ip post E. symmetry in E. split_calls E.
      * intros name _ [= <-]. split; [split; reflexivity|].
        intros ip [E|[E|[E|[]]]]; discriminate E.
  - rewrite (run_usage K P Hlen). cbn [calls]. split.
    + intros pre ip post E. symmetry in E. split_calls E.
    + intros; contradiction.
Qed.

End Failures.

(* ================================================================= *)
(** ** Paths *)

Section Paths.

Lemma startswith_sep_app (a b : string) :
  startswith_sep a = true -> startswith_sep (a ++ b) = true.
Proof. destruct a; cbn; [discriminate | trivial]. Qed.

Lemma endswith_sep_app (a : string) (c : ascii) (b : string) :
  endswith_sep (a ++ String c b) = endswith_sep (String c b).
Proof.
  induction a as [|x a IH]; [reflexivity|].
  cbn [append]. cbn [endswith_sep]. rewrite IH.
  destruct (a ++ String c b) eqn:E; [|reflexivity].
  destruct a; discriminate E.
Qed.

Lemma nonempty_app (a : string) (c : ascii) (b : string) :
  String.eqb (a ++ String c b) "" = false.
Proof. destruct a; reflexivity. Qed.

(** [join(d, 'model', 'mobilenet_weights.h5')] written out. *)
Lemma join_model (d : string) :
  join d ["model"; "mobilenet_weights.h5"]
  = d ++ (if (String.eqb d "" || endswith_sep d)%bool then "" else "/")
      ++ "model/mobilenet_weights.h5".
Proof.
  unfold join. cbn [fold_left]. unfold join_step at 2.
  cbn [startswith_sep Ascii.eqb Bool.eqb slash].
  destruct (String.eqb d "" || endswith_sep d)%bool.
  - unfold join_step. cbn [startswith_sep Ascii.eqb Bool.eqb slash].
    rewrite nonempty_app, endswith_sep_app. cbn [orb].
    change (endswith_sep "model") with false. cbv iota.
    rewrite append_assoc. reflexivity.
  - unfold join_step. cbn [startswith_sep Ascii.eqb Bool.eqb slash].
    change (d ++ "/" ++ "model") with (d ++ String "/" "model").
    rewrite nonempty_app, endswith_sep_app. cbn [orb].
    change (endswith_sep "/model") with false. cbv iota.
    rewrite append_assoc. reflexivity.
Qed.

Lemma chars_str (l : list ascii) : chars (str l) = l.
Proof. apply list_ascii_of_string_of_list_ascii. Qed.

Lemma dropwhile_keeps_last (f : ascii -> bool) (l : list ascii) (x : ascii) :
  f x = false -> exists l', dropwhile f (l ++ [x]) = (l' ++ [x])%list.
Proof.
  intros Hx. induction l as [|c l IH]; cbn.
  - rewrite Hx. now exists [].
  - destruct (f c); [exact IH | now exists (c :: l)].
Qed.

Lemma dropwhile_app_last (f : ascii -> bool) (l : list ascii) (x : ascii) :
  forallb f l = false -> dropwhile f (l ++ [x]) = (dropwhile f l ++ [x])%list.
Proof.
  induction l as [|c l IH]; cbn; [discriminate|].
  destruct (f c); cbn; [exact IH | reflexivity].
Qed.

Lemma forallb_rev (f : ascii -> bool) (l : list ascii) :
  forallb f (rev l) = forallb f l.
Proof.
  induction l as [|c l IH]; [reflexivity|].
  cbn. rewrite forallb_app, IH. cbn. rewrite andb_true_r. apply andb_comm.
Qed.

Lemma startswith_sep_chars (p : string) :
  startswith_sep p = true -> exists l, chars p = slash :: l.
Proof.
  destruct p as [|c p]; cbn; [discriminate|].
  intros E. apply Ascii.eqb_eq in E. subst c. now exists (chars p).
Qed.

(** The directory of an absolute path is absolute. *)
Lemma dirname_absolute (p : string) :
  startswith_sep p = true -> startswith_sep (dirname p) = true.
Proof.
  intros Hp. destruct (startswith_sep_chars p Hp) as (l & Hl).
  assert (Hhead : exists t, upto_last_sep p = str (slash :: t)).
  { unfold upto_last_sep. rewrite Hl. cbn [rev].
    destruct (dropwhile_keeps_last (fun c => negb (is_sep c)) (rev l) slash)
      as (l' & ->); [reflexivity|].
    rewrite rev_app_distr. cbn. now exists (rev l'). }
  destruct Hhead as (t & Hhead). unfold dirname. rewrite Hhead.
  destruct (negb (String.eqb (str (slash :: t)) "")
            && negb (forallb is_sep (chars (str (slash :: t)))))%bool eqn:C;
    [|reflexivity].
  apply andb_true_iff in C as [_ C]. apply negb_true_iff in C.
  rewrite chars_str in C. cbn [forallb] in C.
  change (is_sep slash) with true in C. cbn [andb] in C.
  unfold rstrip_sep. rewrite chars_str. cbn [rev].
  rewrite dropwhile_app_last by (now rewrite forallb_rev).
  rewrite rev_app_distr. reflexivity.
Qed.

(** Normalising an absolute path gives an absolute path. *)
Lemma normpath_absolute (p : string) :
  startswith_sep p = true -> startswith_sep (normpath p) = true.
Proof.
  intros Hp. unfold normpath. rewrite Hp.
  destruct p as [|c p]; [discriminate|]. cbn [String.eqb].
  destruct (startswith2 (String c p) && negb (startswith3 (String c p)))%bool;
    reflexivity.
Qed.

Lemma abspath_absolute (dir path : string) :
  isabs dir = true \/ isabs path = true -> isabs (abspath dir path) = true.
Proof.
  intros Habs. unfold abspath, isabs in *. apply normpath_absolute.
  destruct (startswith_sep path) eqn:Hp; [exact Hp|].
  destruct Habs as [Hd|Hd]; [|discriminate].
  unfold join. cbn [fold_left]. unfold join_step. rewrite Hp.
  destruct (String.eqb dir "" || endswith_sep dir)%bool;
    now apply startswith_sep_app.
Qed.

Lemma abspath_of_absolute (dir path : string) :
  isabs path = true -> abspath dir path = normpath path.
Proof. intros E. unfold abspath. now rewrite E. Qed.

End Paths.

Example script_directory_relative :
  script_directory {| argv := ["tools/../run_nima.py"; "photo.png"];
                      cwd := "/opt/nima";
                      file := "tools/../run_nima.py" |}
  = "/opt/nima".
Proof. vm_compute. reflexivity. Qed.

Example weights_at_root :
  weights_file {| argv := ["/run_nima.py"; "photo.png"];
                  cwd := "/home/user";
                  file := "/run_nima.py" |}
  = "/model/mobilenet_weights.h5".
Proof. vm_compute. reflexivity. Qed.

Section WeightsFile.

Context {A : Type} {arith : Arith A} {format : Format A}.
Variable K : framework A.

(** A run depends on the process only through its command line and the
    location of the script. *)
Lemma run_same_script (P Q : process) :
  argv Q = argv P ->
  abspath (cwd Q) (file Q) = abspath (cwd P) (file P) ->
  run K Q = run K P.
Proof.
  intros Hargv Hpath.
  assert (Hwf : weights_file Q = weights_file P)
    by (unfold weights_file; now rewrite Hpath).
  destruct (Nat.eq_dec (List.length (argv P)) 2) as [Hlen|Hlen].
  - destruct (two_entries _ Hlen) as (script & image_path & E).
    rewrite (run_scoring K P script image_path E).
    rewrite (run_scoring K Q script image_path) by congruence.
    now rewrite Hwf.
  - rewrite !run_usage by congruence. reflexivity.
Qed.

(** C7: the only weights file a run reads is
    [join(dirname(abspath(__file__)), 'model', 'mobilenet_weights.h5')],
    and a run with one argument does read it; written out, this is the
    script directory, a separator unless the directory already ends with
    one, and [model/mobilenet_weights.h5]; the script directory is an
    absolute path as soon as the working directory or [__file__] is one;
    when [__file__] is absolute the whole run is the same
    from every working directory, and in general a run depends on the
    working directory and [__file__] only through the absolute path of the
    script; and no call of a run opens a file for writing. *)
Theorem weights_file_location (P : process) :
  let o := run K P in
  let dir := script_directory P in
  let path := join dir ["model"; "mobilenet_weights.h5"] in
  (forall p, In (LoadWeights p) (calls o) -> p = path)
  /\ (List.length (argv P) = 2%nat -> In (LoadWeights path) (calls o))
  /\ path = dir ++ (if (String.eqb dir "" || endswith_sep dir)%bool
                    then "" else "/") ++ "model/mobilenet_weights.h5"
  /\ (isabs (cwd P) = true \/ isabs (file P) = true -> isabs dir = true)
  /\ (isabs (file P) = true ->
      forall d, script_directory (started_from d P) = dir
                /\ run K (started_from d P) = o)
  /\ (forall Q, argv Q = argv P ->
                abspath (cwd Q) (file Q) = abspath (cwd P) (file P) ->
                script_directory Q = dir /\ run K Q = o)
  /\ (forall ev p, In ev (calls o) -> access ev <> Some (p, Writing)).
Proof.
  intros o dir path. subst o dir path. fold (weights_file P).
  split; [|split; [|split; [|split; [|split; [|split]]]]].
  - intros p Hin.
    destruct (Nat.eq_dec (List.length (argv P)) 2) as [Hlen|Hlen].
    + destruct (two_entries _ Hlen) as (script & image_path & E).
      rewrite (run_scoring K P script image_path E) in Hin. cbv zeta in Hin.
      destruct (read_weights K nima_network (weights_file P)) as [wv|n1].
      * destruct (read_img K image_path (224%nat, 224%nat)) as [img|n2].
        -- destruct (forward K nima_network (Some wv) (prepared K img))
             as [[|scores rest]|n3]; cbn [calls app In] in Hin;
             repeat (destruct Hin as [Hin|Hin]; try discriminate Hin);
             try contradiction; now injection Hin.
        -- cbn [calls app In] in Hin.
           repeat (destruct Hin as [Hin|Hin]; try discriminate Hin);
             try contradiction; now injection Hin.
      * cbn [calls app In] in Hin.
        repeat (destruct Hin as [Hin|Hin]; try discriminate Hin);
          try contradiction; now injection Hin.
    + rewrite (run_usage K P Hlen) in Hin. contradiction.
  - intros Hlen. destruct (two_entries _ Hlen) as (script & image_path & E).
    rewrite (run_scoring K P script image_path E). cbv zeta.
    destruct (read_weights K nima_network (weights_file P)) as [wv|n1].
    + destruct (read_img K image_path (224%nat, 224%nat)) as [img|n2].
      * destruct (forward K nima_network (Some wv) (prepared K img))
          as [[|scores rest]|n3]; cbn [calls app In]; auto.
      * cbn [calls app In]; auto.
    + cbn [calls In]; auto.
  - apply join_model.
  - intros Habs. unfold script_directory. apply dirname_absolute.
    now apply abspath_absolute.
  - intros Habs d. unfold script_directory, started_from. cbn [cwd file].
    rewrite !abspath_of_absolute by exact Habs. split; [reflexivity|].
    apply run_same_script; cbn [argv cwd file]; [reflexivity|].
    now rewrite !abspath_of_absolute.
  - intros Q Hargv Hpath. split; [|now apply run_same_script].
    unfold script_directory. now rewrite Hpath.
  - intros ev p _. destruct ev; cbn; discriminate.
Qed.

End WeightsFile.

(* ================================================================= *)
(** ** The scorer on binary64 distributions *)

Section Scorer.

Context {A : Type} {arith : Arith A}.
Variable K : framework A.

(** When the image decodes and the network predicts, the scorer returns
    the two statistics of the first predicted row. *)
Lemma evaluate_image_returns (image_path : string) (m : model K) (w : world)
    (img : image K) (scores : list A) (rest : list (list A)) :
  read_img K image_path (224%nat, 224%nat) = Returns img ->
  forward K (net m) (loaded m) (prepared K img) = Returns (scores :: rest) ->
  evaluate_image K image_path m w
  = (Ok (mean_score scores, std_score scores),
     World (stdout w) (trace w ++ [LoadImg image_path; Predict])).
Proof.
  intros Hi Hf. rewrite evaluate_image_run, Hi. cbv zeta. now rewrite Hf.
Qed.

End Scorer.

Section Binary64.

Variable K : framework float.

(** C5: when the network predicts 0.1 in each of the ten buckets, the
    scorer returns a mean that [.2f] writes 5.50 and a standard deviation
    that [.2f] writes 2.87. *)
Theorem uniform_scores (image_path : string) (m : model K) (w : world)
    (img : image K) (rest : list (list float)) :
  read_img K image_path (224%nat, 224%nat) = Returns img ->
  forward K (net m) (loaded m) (prepared K img) = Returns (uniform :: rest) ->
  exists mean std w',
    evaluate_image K image_path m w = (Ok (mean, std), w')
    /\ fmt2f mean = "5.50" /\ fmt2f std = "2.87".
Proof.
  intros Hi Hf. eexists _, _, _.
  split; [exact (evaluate_image_returns K _ _ _ _ _ _ Hi Hf)|].
  split; vm_compute; reflexivity.
Qed.

(** C6: when the network puts all the mass on bucket 1, the scorer
    returns mean 1 and standard deviation 0, written 1.00 and 0.00; when
    it puts all the mass on bucket 10, mean 10 and standard deviation 0,
    written 10.00 and 0.00. *)
Theorem point_mass_scores (image_path : string) (m : model K) (w : world)
    (img : image K) (rest : list (list float)) :
  read_img K image_path (224%nat, 224%nat) = Returns img ->
  let w' := World (stdout w) (trace w ++ [LoadImg image_path; Predict]) in
  (forward K (net m) (loaded m) (prepared K img) = Returns (point_mass 1 :: rest) ->
   evaluate_image K image_path m w = (Ok (1%float, 0%float), w')
   /\ score_line 1%float 0%float = "1.00,0.00")
  /\ (forward K (net m) (loaded m) (prepared K img) = Returns (point_mass 10 :: rest) ->
      evaluate_image K image_path m w = (Ok (10%float, 0%float), w')
      /\ score_line 10%float 0%float = "10.00,0.00").
Proof.
  intros Hi w'. subst w'. split; intros Hf.
  - rewrite (evaluate_image_returns K _ _ _ _ _ _ Hi Hf).
    split; vm_compute; reflexivity.
  - rewrite (evaluate_image_returns K _ _ _ _ _ _ Hi Hf).
    split; vm_compute; reflexivity.
Qed.

End Binary64.

(** The same two figures for a uniform prediction in single precision. *)
Lemma uniform32_scores :
  fmt2f (mean_score uniform32) = "5.50" /\ fmt2f (std_score uniform32) = "2.87".
Proof. split; vm_compute; reflexivity. Qed.

(** Every bucket: all the mass on bucket [k] gives mean [k] and standard
    deviation 0. *)
Lemma point_mass_all (k : nat) :
  In k buckets ->
  mean_score (point_mass k) = float64.of_nat k
  /\ std_score (point_mass k) = 0%float.
Proof.
  unfold buckets. cbn [seq In].
  intros [<-|[<-|[<-|[<-|[<-|[<-|[<-|[<-|[<-|[<-|[]]]]]]]]]]];
    split; vm_compute; reflexivity.
Qed.

(* ================================================================= *)
(** ** The [.2f] format *)

Section Format2f.

Lemma digit_is_digit (n : Z) : is_digit (float64.digit n) = true.
Proof.
  unfold float64.digit, is_digit.
  assert (Hk : (Z.to_nat (n mod 10) < 10)%nat).
  { pose proof (Z.mod_pos_bound n 10 eq_refl). lia. }
  rewrite nat_ascii_embedding by lia.
  apply andb_true_iff. split; apply Nat.leb_le; lia.
Qed.

Lemma uint_digits (d : Decimal.uint) :
  all_digits (NilEmpty.string_of_uint d) = true.
Proof. induction d; cbn; trivial. Qed.

Lemma decimal_digits (n : Z) :
  float64.decimal n <> "" /\ all_digits (float64.decimal n) = true.
Proof.
  unfold float64.decimal, NilZero.string_of_uint.
  destruct (N.to_uint (Z.to_N n)) as [|d|d|d|d|d|d|d|d|d|d] eqn:E;
    (split; [discriminate | rewrite <- ?E; cbn; try apply uint_digits; trivial]).
Qed.

Lemma fixed2_two_decimals (neg : bool) (h : Z) :
  two_decimals (float64.sign neg ++ float64.fixed2 h).
Proof.
  destruct (decimal_digits (h / 100)) as [Hne Hall].
  exists neg, (float64.decimal (h / 100)),
    (float64.digit (h / 10)), (float64.digit h).
  repeat split; trivial; apply digit_is_digit.
Qed.

(** A finite float is written with exactly two digits after the point. *)
Lemma format_2f_finite (x : float) :
  float64.finite x = true -> two_decimals (float64.format_2f x).
Proof.
  unfold float64.finite, float64.format_2f.
  destruct (Prim2SF x) as [s|s| |s m e]; try discriminate; intros _.
  - exists s, "0", "0"%char, "0"%char. repeat split. discriminate.
  - apply fixed2_two_decimals.
Qed.

(** A NaN is written [nan], an infinity [inf] or [-inf]. *)
Lemma format_2f_special (x : float) :
  float64.finite x = false -> In (float64.format_2f x) ["nan"; "inf"; "-inf"].
Proof.
  unfold float64.finite, float64.format_2f.
  destruct (Prim2SF x) as [s|s| |s m e]; try discriminate; intros _.
  - destruct s; cbn; auto.
  - cbn; auto.
Qed.

(** None of these has two digits after a decimal point. *)
Lemma format_2f_not_finite (x : float) :
  float64.finite x = false -> ~ two_decimals (float64.format_2f x).
Proof.
  unfold float64.finite, float64.format_2f.
  destruct (Prim2SF x) as [s|s| |s m e]; try discriminate; intros _ Htwo.
  - destruct Htwo as (neg & whole & d1 & d2 & E & Hne & Hall & _).
    destruct s, neg; cbn in E.
    + injection E as E. destruct whole as [|c whole]; [discriminate E|].
      cbn in E. injection E as <- _. discriminate Hall.
    + destruct whole as [|c whole]; [contradiction|].
      cbn in E. injection E as <- _. discriminate Hall.
    + discriminate E.
    + destruct whole as [|c whole]; [contradiction|].
      cbn in E. injection E as <- _. discriminate Hall.
  - destruct Htwo as (neg & whole & d1 & d2 & E & Hne & Hall & _).
    destruct neg; cbn in E; [discriminate E|].
    destruct whole as [|c whole]; [contradiction|].
    cbn in E. injection E as <- _. discriminate Hall.
Qed.

End Format2f.

(* ================================================================= *)
(** ** Binary64: finite scores *)

Local Open Scope Z_scope.

Section Digits.

Lemma fexp64 (x : Z) : fexp prec emax x = Z.max (x - 53) (-1074).
Proof. reflexivity. Qed.

Lemma digits2_size (p : positive) : digits2_pos p = Pos.size p.
Proof. induction p; cbn; now rewrite ?IHp. Qed.

Lemma digits_upper (p : positive) : Z.pos p < 2 ^ Z.pos (digits2_pos p).
Proof.
  rewrite digits2_size. pose proof (Pos.size_gt p) as H.
  apply Pos2Z.pos_lt_pos in H. now rewrite Pos2Z.inj_pow in H.
Qed.

Lemma digits_lower (p : positive) : 2 ^ (Z.pos (digits2_pos p) - 1) <= Z.pos p.
Proof.
  rewrite digits2_size. pose proof (Pos.size_le p) as H.
  apply Pos2Z.pos_le_pos in H. rewrite Pos2Z.inj_pow in H.
  replace (Z.pos (Pos.size p)) with (Z.succ (Z.pos (Pos.size p) - 1)) in H by lia.
  rewrite Z.pow_succ_r in H by lia.
  change (Z.pos p~0) with (2 * Z.pos p) in H. lia.
Qed.

Lemma Zdigits2_nonneg (z : Z) : 0 <= Zdigits2 z.
Proof. destruct z; cbn; lia. Qed.

Lemma Zdigits2_upper (z : Z) : 0 <= z -> z < 2 ^ Zdigits2 z.
Proof.
  destruct z as [|p|p]; cbn [Zdigits2]; intros H; try lia.
  apply digits_upper.
Qed.

(** A non-negative number below [2^k] has at most [k] binary digits. *)
Lemma Zdigits2_le (z k : Z) : 0 <= z < 2 ^ k -> 0 <= k -> Zdigits2 z <= k.
Proof.
  destruct z as [|p|p]; cbn [Zdigits2]; intros [H0 H] Hk; try lia.
  pose proof (digits_lower p) as L.
  destruct (Z_le_gt_dec (Z.pos (digits2_pos p)) k) as [|G]; [assumption|].
  exfalso. assert (2 ^ k <= 2 ^ (Z.pos (digits2_pos p) - 1))
    by (apply Z.pow_le_mono_r; lia). lia.
Qed.

Lemma digits_le (p : positive) (k : Z) :
  Z.pos p < 2 ^ k -> 0 <= k -> Z.pos (digits2_pos p) <= k.
Proof. intros H Hk. apply (Zdigits2_le (Z.pos p) k); lia. Qed.

Lemma digits_mul (a b : positive) :
  Z.pos (digits2_pos (a * b)) <= Z.pos (digits2_pos a) + Z.pos (digits2_pos b).
Proof.
  apply digits_le; [|lia]. rewrite Pos2Z.inj_mul, Z.pow_add_r by lia.
  pose proof (digits_upper a). pose proof (digits_upper b). nia.
Qed.

Lemma digits_iter_xO (m d : positive) :
  Z.pos (digits2_pos (Pos.iter xO m d)) = Z.pos (digits2_pos m) + Z.pos d.
Proof.
  induction d as [|d IH] using Pos.peano_ind.
  - cbn. lia.
  - rewrite Pos.iter_succ. cbn [digits2_pos]. lia.
Qed.

Lemma iter_xO_value (m d : positive) :
  Z.pos (Pos.iter xO m d) = Z.pos m * 2 ^ Z.pos d.
Proof.
  induction d as [|d IH] using Pos.peano_ind.
  - cbn. lia.
  - rewrite Pos.iter_succ, Pos2Z.inj_succ, Z.pow_succ_r by lia.
    change (Z.pos (Pos.iter xO m d)~0) with (2 * Z.pos (Pos.iter xO m d)).
    rewrite IH. ring.
Qed.

End Digits.

Section Rounding.

Lemma shr_record_of_loc_m (m : Z) (l : location) : shr_m (shr_record_of_loc m l) = m.
Proof. destruct l as [|[| |]]; reflexivity. Qed.

Lemma shr_1_m (r : shr_record) : 0 <= shr_m r -> shr_m (shr_1 r) = shr_m r / 2.
Proof.
  destruct r as [m b s]. cbn [shr_m]. intros H. rewrite <- Z.div2_div.
  destruct m as [|[p|p|]|p]; try reflexivity. lia.
Qed.

Lemma iter_shr_1_m (p : positive) (r : shr_record) :
  0 <= shr_m r -> shr_m (SpecFloat.iter_pos shr_1 p r) = shr_m r / 2 ^ Z.pos p.
Proof.
  revert r. induction p as [p IH|p IH|]; intros r H; cbn [SpecFloat.iter_pos].
  - assert (H1 : 0 <= shr_m (shr_1 r)) by (rewrite shr_1_m by lia; apply Z.div_pos; lia).
    assert (H2 : 0 <= shr_m (SpecFloat.iter_pos shr_1 p (shr_1 r)))
      by (rewrite IH by lia; apply Z.div_pos; [lia | apply Z.pow_pos_nonneg; lia]).
    rewrite IH, IH, shr_1_m by lia.
    assert (Hp : 0 < 2 ^ Z.pos p) by (apply Z.pow_pos_nonneg; lia).
    rewrite !Z.div_div by lia.
    replace (Z.pos p~1) with (1 + Z.pos p + Z.pos p) by lia.
    rewrite !Z.pow_add_r by lia. f_equal. change (2 ^ 1) with 2. ring.
  - assert (H2 : 0 <= shr_m (SpecFloat.iter_pos shr_1 p r))
      by (rewrite IH by lia; apply Z.div_pos; [lia | apply Z.pow_pos_nonneg; lia]).
    rewrite IH, IH by lia.
    assert (Hp : 0 < 2 ^ Z.pos p) by (apply Z.pow_pos_nonneg; lia).
    rewrite !Z.div_div by lia.
    replace (Z.pos p~0) with (Z.pos p + Z.pos p) by lia.
    rewrite !Z.pow_add_r by lia. reflexivity.
  - now apply shr_1_m.
Qed.

Lemma shift_digits (m n : Z) :
  0 <= m -> 0 < n -> Zdigits2 (m / 2 ^ n) + n <= Z.max (Zdigits2 m) n.
Proof.
  intros Hm Hn. pose proof (Zdigits2_upper m Hm) as Hd.
  pose proof (Zdigits2_nonneg m) as Hd0.
  assert (Hp : 0 < 2 ^ n) by (apply Z.pow_pos_nonneg; lia).
  destruct (Z_le_gt_dec n (Zdigits2 m)) as [L|G].
  - assert (Zdigits2 (m / 2 ^ n) <= Zdigits2 m - n); [|lia].
    apply Zdigits2_le; [|lia]. split; [apply Z.div_pos; lia|].
    apply Z.div_lt_upper_bound; [lia|].
    rewrite <- Z.pow_add_r by lia. now replace (n + (Zdigits2 m - n)) with (Zdigits2 m) by lia.
  - rewrite Z.div_small; [cbn; lia|]. split; [lia|].
    eapply Z.lt_le_trans; [exact Hd|]. apply Z.pow_le_mono_r; lia.
Qed.

(** One normalising shift: the mantissa stays non-negative, the magnitude
    does not grow, the exponent is the old one or the one the format
    prescribes. *)
Lemma shr_fexp_bound (m e : Z) (l : location) (N : Z) :
  0 <= m -> Zdigits2 m + e <= N -> -1074 <= N ->
  0 <= shr_m (fst (shr_fexp prec emax m e l))
  /\ Zdigits2 (shr_m (fst (shr_fexp prec emax m e l)))
     + snd (shr_fexp prec emax m e l) <= N
  /\ snd (shr_fexp prec emax m e l) <= Z.max e (Z.max (N - 53) (-1074)).
Proof.
  intros Hm Hd HN. unfold shr_fexp, shr. rewrite fexp64.
  remember (Z.max (Zdigits2 m + e - 53) (-1074)) as f eqn:Hf.
  destruct (f - e) as [|p|p] eqn:E; cbn [fst snd]; rewrite ?shr_record_of_loc_m.
  - repeat split; lia.
  - rewrite iter_shr_1_m by (rewrite shr_record_of_loc_m; lia).
    rewrite shr_record_of_loc_m.
    pose proof (shift_digits m (Z.pos p) Hm ltac:(lia)).
    split; [apply Z.div_pos; [lia | apply Z.pow_pos_nonneg; lia]|]. lia.
  - repeat split; lia.
Qed.

Lemma round_nearest_even_bound (m : Z) (l : location) :
  m <= round_nearest_even m l <= m + 1.
Proof.
  unfold round_nearest_even. destruct l as [|[| |]]; try lia.
  destruct (Z.even m); lia.
Qed.

Lemma Zdigits2_succ (m k : Z) :
  0 <= m -> m <= k <= m + 1 -> Zdigits2 k <= Zdigits2 m + 1.
Proof.
  intros Hm Hk. pose proof (Zdigits2_upper m Hm). pose proof (Zdigits2_nonneg m).
  apply Zdigits2_le; [|lia]. rewrite Z.pow_add_r by lia. change (2 ^ 1) with 2.
  assert (0 < 2 ^ Zdigits2 m) by (apply Z.pow_pos_nonneg; lia). lia.
Qed.

(** Rounding a non-negative mantissa of moderate magnitude gives a zero
    or a finite number of the same sign, at most one binade up. *)
Lemma round_below (sx : bool) (mx ex : Z) (lx : location) (N : Z) :
  0 <= mx -> Zdigits2 mx + ex <= N -> ex <= 971 -> -1074 <= N <= 1022 ->
  binary_round_aux prec emax sx mx ex lx = S754_zero sx
  \/ exists m e,
       binary_round_aux prec emax sx mx ex lx = S754_finite sx m e
       /\ Z.pos (digits2_pos m) + e <= N + 1.
Proof.
  intros Hm Hd He HN. unfold binary_round_aux.
  destruct (shr_fexp_bound mx ex lx N Hm Hd ltac:(lia)) as (H1 & H2 & H3).
  destruct (shr_fexp prec emax mx ex lx) as [r1 e1]. cbn [fst snd] in *.
  set (m2 := round_nearest_even (shr_m r1) (loc_of_shr_record r1)).
  pose proof (round_nearest_even_bound (shr_m r1) (loc_of_shr_record r1)) as Hr.
  fold m2 in Hr.
  pose proof (Zdigits2_succ (shr_m r1) m2 H1 Hr) as Hd2.
  destruct (shr_fexp_bound m2 e1 loc_Exact (N + 1) ltac:(lia) ltac:(lia) ltac:(lia))
    as (K1 & K2 & K3).
  destruct (shr_fexp prec emax m2 e1 loc_Exact) as [r2 e2]. cbn [fst snd] in *.
  destruct (shr_m r2) as [|m|m] eqn:Em; [now left | | lia].
  right. change (emax - prec) with 971.
  replace (e2 <=? 971) with true by (symmetry; apply Z.leb_le; lia).
  exists m, e2. split; [reflexivity|]. cbn [Zdigits2] in K2. lia.
Qed.

End Rounding.

Section Operations.

Lemma signed_below (s : bool) (N : Z) (x : spec_float) : signed s N x -> below N x.
Proof. intros [->|(m & e & -> & H)]; cbn; trivial. Qed.

Lemma signed_not_negative (N : Z) (x : spec_float) :
  signed false N x -> not_negative x.
Proof. intros [->|(m & e & -> & H)]; cbn; trivial. Qed.

Lemma below_mono (N M : Z) (x : spec_float) : N <= M -> below N x -> below M x.
Proof. destruct x; cbn; trivial; lia. Qed.

Lemma binary_round_below (sx : bool) (m : positive) (e N : Z) :
  Z.pos (digits2_pos m) + e <= N -> e <= 971 -> -1074 <= N <= 1022 ->
  signed sx (N + 1) (binary_round prec emax sx m e).
Proof.
  intros Hd He HN. unfold binary_round, shl_align. rewrite fexp64.
  remember (Z.max (Z.pos (digits2_pos m) + e - 53) (-1074)) as f eqn:Hf.
  destruct (f - e) as [|p|p] eqn:E.
  - apply round_below; cbn [Zdigits2]; lia.
  - apply round_below; cbn [Zdigits2]; lia.
  - apply round_below; cbn [Zdigits2]; try lia.
    rewrite digits_iter_xO. lia.
Qed.

Lemma SFmul_below (x y : spec_float) (Nx Ny : Z) :
  below Nx x -> below Ny y -> -1074 <= Nx + Ny <= 973 ->
  below (Nx + Ny + 1) (SF64mul x y).
Proof.
  intros Hx Hy HN. destruct x as [sx|sx| |sx mx ex], y as [sy|sy| |sy my ey];
    cbn [below] in Hx, Hy; try contradiction; try exact I.
  unfold SF64mul, SFmul. apply (signed_below (xorb sx sy)).
  pose proof (digits_mul mx my).
  assert (0 < Z.pos (digits2_pos mx)) by lia. assert (0 < Z.pos (digits2_pos my)) by lia.
  apply round_below; cbn [Zdigits2]; lia.
Qed.

Lemma SFmul_not_negative (x y : spec_float) (Nx Ny : Z) :
  below Nx x -> below Ny y -> -1074 <= Nx + Ny <= 973 ->
  not_negative x -> not_negative y -> not_negative (SF64mul x y).
Proof.
  intros Hx Hy HN Px Py. destruct x as [sx|sx| |sx mx ex], y as [sy|sy| |sy my ey];
    cbn [below not_negative] in Hx, Hy, Px, Py; try contradiction; try exact I.
  subst sx sy. unfold SF64mul, SFmul. apply (signed_not_negative (Nx + Ny + 1)).
  pose proof (digits_mul mx my).
  assert (0 < Z.pos (digits2_pos mx)) by lia. assert (0 < Z.pos (digits2_pos my)) by lia.
  apply round_below; cbn [Zdigits2]; lia.
Qed.

Lemma SFsquare_not_negative (x : spec_float) (N : Z) :
  below N x -> -1074 <= N + N <= 973 -> not_negative (SF64mul x x).
Proof.
  intros Hx HN. destruct x as [sx|sx| |sx mx ex]; cbn [below] in Hx; try contradiction;
    try exact I.
  unfold SF64mul, SFmul. rewrite xorb_nilpotent.
  apply (signed_not_negative (N + N + 1)).
  pose proof (digits_mul mx mx). assert (0 < Z.pos (digits2_pos mx)) by lia.
  apply round_below; cbn [Zdigits2]; lia.
Qed.

Lemma shl_align_fst (m : positive) (e e' : Z) :
  e' <= e -> Z.pos (fst (shl_align m e e')) = Z.pos m * 2 ^ (e - e').
Proof.
  intros H. unfold shl_align. destruct (e' - e) as [|p|p] eqn:E; cbn [fst]; try lia.
  - replace (e - e') with 0 by lia. cbn. lia.
  - rewrite iter_xO_value. f_equal. f_equal. lia.
Qed.

Lemma aligned_upper (m : positive) (e e' N : Z) :
  e' <= e -> Z.pos (digits2_pos m) + e <= N ->
  Z.pos (fst (shl_align m e e')) < 2 ^ (N - e').
Proof.
  intros H Hd. rewrite shl_align_fst by lia.
  pose proof (digits_upper m) as Hm.
  assert (Hp : 0 < 2 ^ (e - e')) by (apply Z.pow_pos_nonneg; lia).
  eapply Z.lt_le_trans.
  - apply Z.mul_lt_mono_pos_r; [exact Hp | exact Hm].
  - rewrite <- Z.pow_add_r by lia. apply Z.pow_le_mono_r; lia.
Qed.

Lemma binary_normalize_below (s e N : Z) :
  Z.abs s < 2 ^ (N - e) -> 0 <= N - e -> e <= 971 -> -1074 <= N <= 1022 ->
  below (N + 1) (binary_normalize prec emax s e false)
  /\ (0 <= s -> not_negative (binary_normalize prec emax s e false)).
Proof.
  intros Hs HNe He HN. destruct s as [|m|m]; cbn [binary_normalize].
  - split; [exact I | intros _; exact I].
  - assert (Hd : Z.pos (digits2_pos m) + e <= N)
      by (pose proof (digits_le m (N - e) ltac:(lia) HNe); lia).
    pose proof (binary_round_below false m e N Hd He HN) as Hr.
    split; [now apply signed_below in Hr | intros _; now apply signed_not_negative in Hr].
  - assert (Hd : Z.pos (digits2_pos m) + e <= N)
      by (pose proof (digits_le m (N - e) ltac:(lia) HNe); lia).
    pose proof (binary_round_below true m e N Hd He HN) as Hr.
    split; [now apply signed_below in Hr | lia].
Qed.

Lemma SFadd_below (x y : spec_float) (N : Z) :
  below N x -> below N y -> -1074 <= N <= 970 ->
  below (N + 2) (SF64add x y)
  /\ (not_negative x -> not_negative y -> not_negative (SF64add x y)).
Proof.
  intros Hx Hy HN. destruct x as [sx|sx| |sx mx ex], y as [sy|sy| |sy my ey];
    cbn [below] in Hx, Hy; try contradiction.
  - split; [destruct sx, sy; exact I | intros _ _; destruct sx, sy; exact I].
  - split; [unfold SF64add, SFadd; cbn [below]; lia | intros _ H; exact H].
  - split; [unfold SF64add, SFadd; cbn [below]; lia | intros H _; exact H].
  - unfold SF64add, SFadd. cbv zeta.
    set (ez := Z.min ex ey).
    pose proof (aligned_upper mx ex ez N ltac:(lia) Hx) as Ax.
    pose proof (aligned_upper my ey ez N ltac:(lia) Hy) as Ay.
    set (ax := Z.pos (fst (shl_align mx ex ez))) in *.
    set (ay := Z.pos (fst (shl_align my ey ez))) in *.
    assert (Hax : 0 < ax) by (unfold ax; lia).
    assert (Hay : 0 < ay) by (unfold ay; lia).
    assert (HNe : 0 <= N - ez).
    { assert (0 < Z.pos (digits2_pos mx)) by lia. lia. }
    assert (Hs : Z.abs (cond_Zopp sx ax + cond_Zopp sy ay) < 2 ^ (N + 1 - ez)).
    { replace (N + 1 - ez) with (1 + (N - ez)) by lia.
      rewrite Z.pow_add_r by lia. change (2 ^ 1) with 2.
      destruct sx, sy; cbn [cond_Zopp]; lia. }
    assert (0 < Z.pos (digits2_pos mx)) by lia.
    destruct (binary_normalize_below (cond_Zopp sx ax + cond_Zopp sy ay) ez (N + 1)
                Hs ltac:(lia) ltac:(lia) ltac:(lia)) as [Hb Hp].
    split; [now replace (N + 2) with (N + 1 + 1) by lia|].
    cbn [not_negative]. intros -> ->. apply Hp. cbn [cond_Zopp]. lia.
Qed.

Lemma SFsub_below (x y : spec_float) (N : Z) :
  below N x -> below N y -> -1074 <= N <= 970 -> below (N + 2) (SF64sub x y).
Proof.
  intros Hx Hy HN. destruct x as [sx|sx| |sx mx ex], y as [sy|sy| |sy my ey];
    cbn [below] in Hx, Hy; try contradiction.
  - destruct sx, sy; exact I.
  - unfold SF64sub, SFsub; cbn [below]; lia.
  - unfold SF64sub, SFsub; cbn [below]; lia.
  - unfold SF64sub, SFsub. cbv zeta.
    set (ez := Z.min ex ey).
    pose proof (aligned_upper mx ex ez N ltac:(lia) Hx) as Ax.
    pose proof (aligned_upper my ey ez N ltac:(lia) Hy) as Ay.
    set (ax := Z.pos (fst (shl_align mx ex ez))) in *.
    set (ay := Z.pos (fst (shl_align my ey ez))) in *.
    assert (Hax : 0 < ax) by (unfold ax; lia).
    assert (Hay : 0 < ay) by (unfold ay; lia).
    assert (0 < Z.pos (digits2_pos mx)) by lia.
    assert (Hs : Z.abs (cond_Zopp sx ax - cond_Zopp sy ay) < 2 ^ (N + 1 - ez)).
    { replace (N + 1 - ez) with (1 + (N - ez)) by lia.
      rewrite Z.pow_add_r by lia. change (2 ^ 1) with 2.
      destruct sx, sy; cbn [cond_Zopp]; lia. }
    destruct (binary_normalize_below (cond_Zopp sx ax - cond_Zopp sy ay) ez (N + 1)
                Hs ltac:(lia) ltac:(lia) ltac:(lia)) as [Hb _].
    now replace (N + 2) with (N + 1 + 1) by lia.
Qed.

End Operations.

Section SquareRoot.

Lemma sqrt_digits (q n k : Z) :
  0 <= q -> q * q <= n -> n < 2 ^ (2 * k) -> 0 <= k -> Zdigits2 q <= k.
Proof.
  intros Hq Hn Hk H0. apply Zdigits2_le; [|exact H0]. split; [exact Hq|].
  destruct (Z_lt_le_dec q (2 ^ k)) as [L|G]; [exact L|]. exfalso.
  assert (Hp : 0 < 2 ^ k) by (apply Z.pow_pos_nonneg; lia).
  assert (2 ^ (2 * k) <= q * q).
  { replace (2 * k) with (k + k) by lia. rewrite Z.pow_add_r by lia. nia. }
  lia.
Qed.

Lemma SFsqrt_below (x : spec_float) (N : Z) :
  below N x -> not_negative x -> 0 <= N <= 970 -> below (N + 1) (SF64sqrt x).
Proof.
  intros Hx Px HN. destruct x as [sx|sx| |sx m e];
    cbn [below not_negative] in Hx, Px; try contradiction; [exact I|].
  subst sx. unfold SF64sqrt, SFsqrt, SFsqrt_core_binary. cbv zeta.
  rewrite fexp64. cbn [Zdigits2].
  pose proof (digits_upper m) as Hm.
  assert (Hd0 : 0 < Z.pos (digits2_pos m)) by lia.
  remember (Z.pos (digits2_pos m)) as d eqn:Hd.
  remember (Z.min (Z.max (Z.div2 (d + e + 1) - 53) (-1074)) (Z.div2 e)) as e' eqn:He'.
  rewrite !Z.div2_div in He'.
  remember (e - 2 * e') as s eqn:Hs.
  assert (He2 : 2 * (e / 2) <= e) by (apply Z.mul_div_le; lia).
  assert (Hs0 : 0 <= s) by lia.
  set (m' := match s with
             | 0 => Z.pos m
             | Z.pos _ => Z.shiftl (Z.pos m) s
             | Z.neg _ => 0
             end).
  assert (Hm' : m' = Z.pos m * 2 ^ s).
  { unfold m'. destruct s as [|p|p]; [cbn; lia | apply Z.shiftl_mul_pow2; lia | lia]. }
  assert (Hp : 0 < 2 ^ s) by (apply Z.pow_pos_nonneg; lia).
  assert (Hm0 : 0 <= m') by (rewrite Hm'; lia).
  pose proof (Z.sqrtrem_spec m' Hm0) as Hq.
  destruct (Z.sqrtrem m') as [q r]. destruct Hq as [Hq Hr].
  assert (Hq0 : 0 <= q) by lia.
  assert (Hlt : m' < 2 ^ (2 * ((d + s + 1) / 2))).
  { rewrite Hm'. eapply Z.lt_le_trans.
    - apply Z.mul_lt_mono_pos_r; [exact Hp | exact Hm].
    - rewrite <- Z.pow_add_r by lia.
      apply Z.pow_le_mono_r; [lia|]. Z.div_mod_to_equations. lia. }
  assert (Hk : 0 <= (d + s + 1) / 2) by (apply Z.div_pos; lia).
  pose proof (sqrt_digits q m' ((d + s + 1) / 2) Hq0 ltac:(nia) Hlt Hk) as Hdq.
  assert (Hsum : (d + s + 1) / 2 + e' <= N).
  { subst s. Z.div_mod_to_equations. lia. }
  assert (He1 : e' <= 971) by lia.
  apply (signed_below false). apply round_below; lia.
Qed.

End SquareRoot.

Section Floats.

Lemma mul_small (x y : float) (Nx Ny : Z) :
  small Nx x -> small Ny y -> -1074 <= Nx + Ny <= 973 ->
  small (Nx + Ny + 1) (x * y)%float
  /\ (pos0 x -> pos0 y -> pos0 (x * y)%float).
Proof.
  unfold small, pos0. intros Hx Hy HN. rewrite FloatAxioms.mul_spec. split.
  - now apply SFmul_below.
  - now apply (SFmul_not_negative _ _ Nx Ny).
Qed.

Lemma square_pos0 (x : float) (N : Z) :
  small N x -> -1074 <= N + N <= 973 -> pos0 (x * x)%float.
Proof.
  unfold small, pos0. intros Hx HN. rewrite FloatAxioms.mul_spec.
  now apply (SFsquare_not_negative _ N).
Qed.

Lemma add_small (x y : float) (N : Z) :
  small N x -> small N y -> -1074 <= N <= 970 ->
  small (N + 2) (x + y)%float /\ (pos0 x -> pos0 y -> pos0 (x + y)%float).
Proof.
  unfold small, pos0. intros Hx Hy HN. rewrite FloatAxioms.add_spec.
  now apply SFadd_below.
Qed.

Lemma sub_small (x y : float) (N : Z) :
  small N x -> small N y -> -1074 <= N <= 970 -> small (N + 2) (x - y)%float.
Proof.
  unfold small. intros Hx Hy HN. rewrite FloatAxioms.sub_spec.
  now apply SFsub_below.
Qed.

Lemma sqrt_small (x : float) (N : Z) :
  small N x -> pos0 x -> 0 <= N <= 970 -> small (N + 1) (PrimFloat.sqrt x).
Proof.
  unfold small, pos0. intros Hx Px HN. rewrite FloatAxioms.sqrt_spec.
  now apply SFsqrt_below.
Qed.

Lemma probability_small (x : float) :
  probability x = true -> small 1 x /\ pos0 x.
Proof.
  unfold probability, small, pos0. intros H. apply andb_true_iff in H as [H0 H1].
  rewrite FloatAxioms.leb_spec in H0, H1.
  pose proof (Prim2SF_valid x) as Hv.
  change (Prim2SF 0) with (S754_zero false) in H0.
  change (Prim2SF 1) with (S754_finite false 4503599627370496 (-52)) in H1.
  destruct (Prim2SF x) as [s|s| |s m e]; cbn [below not_negative].
  - split; exact I.
  - destruct s; discriminate.
  - discriminate.
  - destruct s; [discriminate H0|]. split; [|reflexivity].
    unfold valid_binary, bounded, canonical_mantissa in Hv.
    apply andb_true_iff in Hv as [Hc _]. apply Z.eqb_eq in Hc. rewrite fexp64 in Hc.
    unfold SFleb, SFcompare in H1.
    destruct (Z.compare_spec e (-52)) as [E|L|G]; try discriminate H1; [|lia].
    subst e. destruct (Pos.compare_cont Eq m 4503599627370496) eqn:C;
      try discriminate H1; lia.
Qed.

End Floats.

Section FiniteScores.

Lemma small_mono (N M : Z) (x : float) : N <= M -> small N x -> small M x.
Proof. unfold small. apply below_mono. Qed.

Lemma small_finite (N : Z) (x : float) : small N x -> float64.finite x = true.
Proof.
  unfold small, float64.finite. destruct (Prim2SF x); cbn [below]; trivial; contradiction.
Qed.

Lemma bucket_small (i : nat) :
  In i buckets -> small 4 (float64.of_nat i) /\ pos0 (float64.of_nat i).
Proof.
  unfold buckets. cbn [seq In].
  intros [<-|[<-|[<-|[<-|[<-|[<-|[<-|[<-|[<-|[<-|[]]]]]]]]]]];
    (split; [vm_compute; discriminate | vm_compute; reflexivity]).
Qed.

Lemma entry_small (p : list float) (n : nat) :
  forallb probability p = true ->
  small 1 (nth n p PrimFloat.zero) /\ pos0 (nth n p PrimFloat.zero).
Proof.
  intros Hp. destruct (nth_in_or_default n p PrimFloat.zero) as [Hin| ->].
  - apply probability_small. rewrite forallb_forall in Hp. now apply Hp.
  - split; vm_compute; exact I.
Qed.

Lemma fold_add_small (l : list float) :
  forall (acc : float) (N : Z),
    small N acc -> pos0 acc ->
    Forall (fun x => small N x /\ pos0 x) l ->
    -1074 <= N -> N + 2 * Z.of_nat (List.length l) <= 972 ->
    small (N + 2 * Z.of_nat (List.length l)) (fold_left PrimFloat.add l acc)
    /\ pos0 (fold_left PrimFloat.add l acc).
Proof.
  induction l as [|x l IH]; intros acc N Ha Pa Hl HN Hlen.
  - cbn [fold_left List.length]. split; [|exact Pa].
    apply (small_mono N); [lia | exact Ha].
  - cbn [fold_left]. inversion Hl as [|? ? [Hx Px] Hl']; subst.
    rewrite length_cons, Nat2Z.inj_succ in *.
    destruct (add_small acc x N Ha Hx ltac:(lia)) as [Hs Ps].
    replace (N + 2 * Z.succ (Z.of_nat (List.length l)))
      with (N + 2 + 2 * Z.of_nat (List.length l)) by lia.
    apply IH; try lia; [exact Hs | now apply Ps |].
    apply Forall_impl with (2 := Hl'). intros y [Hy Py].
    split; [apply (small_mono N); [lia | exact Hy] | exact Py].
Qed.

(** The sum of the scorer on small non-negative terms. *)
Lemma total_small (xs : list float) (N : Z) :
  Forall (fun x => small N x /\ pos0 x) xs ->
  -1074 <= N -> N + 2 * Z.of_nat (List.length xs) <= 974 ->
  small (N + 2 * Z.of_nat (List.length xs)) (total xs) /\ pos0 (total xs).
Proof.
  intros Hxs HN Hlen. destruct xs as [|x r].
  - split; vm_compute; exact I.
  - cbn [total]. inversion Hxs as [|? ? [Hx Px] Hr]; subst.
    rewrite length_cons, Nat2Z.inj_succ in *.
    destruct (fold_add_small r x N Hx Px Hr HN ltac:(lia)) as [Hs Ps].
    split; [|exact Ps]. eapply small_mono; [|exact Hs]. lia.
Qed.

(** On a row of probabilities the mean is a finite non-negative number. *)
Lemma mean_score_small (p : list float) :
  forallb probability p = true ->
  small 26 (mean_score p) /\ pos0 (mean_score p).
Proof.
  intros Hp. unfold mean_score, prob. cbn [num_mul num_of_nat num_zero float_arith].
  set (terms := map _ buckets).
  assert (Hlen : List.length terms = 10%nat) by (unfold terms; now rewrite length_map).
  assert (Hterms : Forall (fun x => small 6 x /\ pos0 x) terms).
  { unfold terms. apply Forall_map, Forall_forall. intros i Hi.
    destruct (bucket_small i Hi) as [Hb Pb].
    destruct (entry_small p (i - 1) Hp) as [He Pe].
    destruct (mul_small _ _ 4 1 Hb He ltac:(lia)) as [Hm Pm].
    split; [exact Hm | now apply Pm]. }
  pose proof (total_small terms 6 Hterms ltac:(lia) ltac:(rewrite Hlen; lia)) as H.
  now rewrite Hlen in H.
Qed.

(** On a row of probabilities the standard deviation is a finite number. *)
Lemma std_score_small (p : list float) :
  forallb probability p = true -> small 80 (std_score p).
Proof.
  intros Hp. destruct (mean_score_small p Hp) as [Hmean _].
  unfold std_score, variance, square, prob.
  cbn [num_sqrt num_mul num_sub num_of_nat num_zero float_arith].
  set (mean := mean_score p) in *.
  set (terms := map _ buckets).
  assert (Hlen : List.length terms = 10%nat) by (unfold terms; now rewrite length_map).
  assert (Hterms : Forall (fun x => small 59 x /\ pos0 x) terms).
  { unfold terms. apply Forall_map, Forall_forall. intros i Hi.
    destruct (bucket_small i Hi) as [Hb _].
    destruct (entry_small p (i - 1) Hp) as [He Pe].
    assert (Hd : small 28 (float64.of_nat i - mean)%float).
    { apply (sub_small _ _ 26); [|exact Hmean|lia].
      apply (small_mono 4); [lia | exact Hb]. }
    destruct (mul_small _ _ 28 28 Hd Hd ltac:(lia)) as [Hq _].
    pose proof (square_pos0 _ 28 Hd ltac:(lia)) as Pq.
    destruct (mul_small _ _ (28 + 28 + 1) 1 Hq He ltac:(lia)) as [Hm Pm].
    split; [exact Hm | now apply Pm]. }
  destruct (total_small terms 59 Hterms ltac:(lia) ltac:(rewrite Hlen; lia)) as [Hv Pv].
  rewrite Hlen in Hv.
  exact (sqrt_small _ _ Hv Pv ltac:(lia)).
Qed.

End FiniteScores.

Local Close Scope Z_scope.

Section Output.

Variable K : framework float.


End Output.

(* ================================================================= *)
(** ** The scorer in rounded real arithmetic *)

Local Open Scope R_scope.

Lemma Rabs_bound (x a : R) : Rabs x <= a -> - a <= x <= a.
Proof. unfold Rabs. destruct (Rcase_abs x); lra. Qed.

Lemma sqrt_diff (a b : R) :
  0 <= a -> 0 <= b -> Rabs (sqrt a - sqrt b) <= sqrt (Rabs (a - b)).
Proof.
  assert (Hle : forall a b, 0 <= b <= a -> 0 <= sqrt a - sqrt b <= sqrt (a - b)).
  { clear. intros a b Hab.
    pose proof (sqrt_pos a). pose proof (sqrt_pos b). pose proof (sqrt_pos (a - b)).
    pose proof (sqrt_sqrt a). pose proof (sqrt_sqrt b). pose proof (sqrt_sqrt (a - b)).
    assert (sqrt b <= sqrt a) by (apply sqrt_le_1_alt; lra).
    split; [lra|].
    destruct (Rle_dec (sqrt a) (sqrt b + sqrt (a - b))) as [Hok|Hbad]; [lra|].
    exfalso. nra. }
  intros Ha Hb. destruct (Rle_dec b a) as [Hba|Hba].
  - rewrite (Rabs_pos_eq (a - b)) by lra.
    destruct (Hle a b (conj Hb Hba)). apply Rabs_le. lra.
  - rewrite Rabs_minus_sym, (Rabs_minus_sym a b).
    rewrite (Rabs_pos_eq (b - a)) by lra.
    destruct (Hle b a); [lra|]. apply Rabs_le. lra.
Qed.

Section Sums.

Context {X : Type}.

Lemma Forall2_map_same (P : R -> R -> Prop) (f g : X -> R) (l : list X) :
  (forall i, In i l -> P (f i) (g i)) -> Forall2 P (map f l) (map g l).
Proof.
  induction l as [|i l IH]; intros Hl; cbn; constructor.
  - apply Hl. now left.
  - apply IH. intros j Hj. apply Hl. now right.
Qed.

Lemma rsum_cons (x : R) (xs : list R) : rsum (x :: xs) = x + rsum xs.
Proof. reflexivity. Qed.

Lemma rsum_abs_diff (f g h : X -> R) (e : R) (l : list X) :
  (forall i, In i l -> Rabs (f i - g i) <= e * h i) ->
  Rabs (rsum (map f l) - rsum (map g l)) <= e * rsum (map h l).
Proof.
  induction l as [|i l IH]; intros Hl; cbn [map]; rewrite ?rsum_cons.
  - cbn. rewrite Rminus_diag, Rabs_R0. lra.
  - assert (Hi : Rabs (f i - g i) <= e * h i) by (apply Hl; now left).
    assert (Hrest : Rabs (rsum (map f l) - rsum (map g l)) <= e * rsum (map h l))
      by (apply IH; intros j Hj; apply Hl; now right).
    apply Rabs_bound in Hi, Hrest. apply Rabs_le. lra.
Qed.

Lemma rsum_le (g h : X -> R) (l : list X) :
  (forall i, In i l -> g i <= h i) -> rsum (map g l) <= rsum (map h l).
Proof.
  induction l as [|i l IH]; intros Hl; cbn [map]; rewrite ?rsum_cons; [cbn; lra|].
  assert (g i <= h i) by (apply Hl; now left).
  assert (rsum (map g l) <= rsum (map h l))
    by (apply IH; intros j Hj; apply Hl; now right).
  lra.
Qed.

Lemma rsum_nonneg (g : X -> R) (l : list X) :
  (forall i, In i l -> 0 <= g i) -> 0 <= rsum (map g l).
Proof.
  induction l as [|i l IH]; intros Hl; cbn [map]; rewrite ?rsum_cons; [cbn; lra|].
  assert (0 <= g i) by (apply Hl; now left).
  assert (0 <= rsum (map g l)) by (apply IH; intros j Hj; apply Hl; now right).
  lra.
Qed.

Lemma rsum_scale (c : R) (h : X -> R) (l : list X) :
  rsum (map (fun i => c * h i) l) = c * rsum (map h l).
Proof.
  induction l as [|i l IH]; cbn [map]; rewrite ?rsum_cons; [cbn; ring|].
  rewrite IH. ring.
Qed.

End Sums.

Lemma nth_nonneg (p : list R) (i : nat) :
  Forall (fun x => 0 <= x) p -> 0 <= nth i p 0.
Proof.
  intros Hp. revert i. induction Hp as [|x p Hx _ IH]; intros [|i]; cbn; auto; lra.
Qed.

Lemma bucket_range (i : nat) : In i buckets -> 1 <= INR i <= 10.
Proof.
  unfold buckets. rewrite in_seq. intros [Hlo Hhi].
  split.
  - apply (le_INR 1 i) in Hlo. cbn in Hlo. lra.
  - assert (Hle : (i <= 10)%nat) by lia.
    apply le_INR in Hle. cbn in Hle. lra.
Qed.

Section Rounded.

Variable rnd : R -> R.
Variable u : R.
Hypothesis Hr : rounding rnd u.

Lemma u_nonneg : 0 <= u.
Proof. exact (proj1 Hr). Qed.

Lemma rnd_error (x : R) : Rabs (rnd x - x) <= u * Rabs x.
Proof. exact (proj2 Hr x). Qed.

Lemma rnd_within (x B : R) :
  Rabs x <= B -> - (u * B) <= rnd x - x <= u * B.
Proof.
  intros HB. apply Rabs_bound. eapply Rle_trans; [apply rnd_error|].
  apply Rmult_le_compat_l; [exact u_nonneg | exact HB].
Qed.

Lemma rnd_nonneg (x : R) : u <= 1 -> 0 <= x -> 0 <= rnd x <= (1 + u) * x.
Proof.
  intros Hu Hx. pose proof (rnd_within x x) as E.
  rewrite (Rabs_pos_eq x Hx) in E. specialize (E (Rle_refl x)).
  pose proof u_nonneg. nra.
Qed.

Lemma growth_S (k : nat) : 1 + growth u (S k) = (1 + growth u k) * (1 + u).
Proof. unfold growth. cbn [pow]. ring. Qed.

Lemma growth_nonneg (k : nat) : 0 <= growth u k.
Proof.
  pose proof u_nonneg. induction k as [|k IH].
  - unfold growth. cbn. lra.
  - pose proof (growth_S k). nra.
Qed.

Lemma growth_mono (j k : nat) : (j <= k)%nat -> growth u j <= growth u k.
Proof.
  induction 1 as [|k _ IH]; [lra|].
  pose proof u_nonneg. pose proof (growth_nonneg k). pose proof (growth_S k). nra.
Qed.

Lemma growth_1 : growth u 1 = u.
Proof. unfold growth. cbn. ring. Qed.

(** [(1+u)^k - 1 <= 2ku] as long as [2ku <= 1]. *)
Lemma growth_linear (k : nat) :
  2 * INR k * u <= 1 -> growth u k <= 2 * INR k * u.
Proof.
  pose proof u_nonneg as Hu. induction k as [|k IH]; intros Hk.
  - unfold growth. cbn. lra.
  - rewrite S_INR in *. pose proof (pos_INR k).
    assert (Hk' : 2 * INR k * u <= 1) by nra.
    specialize (IH Hk'). pose proof (growth_S k). pose proof (growth_nonneg k).
    nra.
Qed.

Lemma close_mono (j k : nat) (y x : R) :
  (j <= k)%nat -> close u j y x -> close u k y x.
Proof.
  intros Hjk [Hx Hy]. split; [exact Hx|].
  pose proof (growth_mono j k Hjk). nra.
Qed.

Lemma close_rnd (x : R) : 0 <= x -> close u 1 (rnd x) x.
Proof.
  intros Hx. split; [exact Hx|]. rewrite growth_1.
  pose proof (rnd_error x) as E. now rewrite (Rabs_pos_eq x Hx) in E.
Qed.

(** One rounded addition of two approximations of non-negative values. *)
Lemma add_step (k : nat) (acc X y x : R) :
  close u k acc X -> close u k y x -> close u (S k) (rnd (acc + y)) (X + x).
Proof.
  intros [HX Hacc] [Hx Hy]. split; [lra|].
  pose proof (rnd_error (acc + y)) as Hrnd.
  pose proof u_nonneg as Hu. pose proof (growth_nonneg k) as Hg.
  pose proof (growth_S k) as HS.
  apply Rabs_bound in Hacc, Hy.
  assert (Hsum : Rabs (acc + y) <= (1 + growth u k) * (X + x)).
  { apply Rabs_le. nra. }
  assert (Hrnd' : Rabs (rnd (acc + y) - (acc + y))
                  <= u * ((1 + growth u k) * (X + x))).
  { eapply Rle_trans; [exact Hrnd|]. apply Rmult_le_compat_l; assumption. }
  apply Rabs_bound in Hrnd'. apply Rabs_le. nra.
Qed.

Lemma fold_rounded (ys xs : list R) :
  Forall2 (close u 1) ys xs ->
  forall (k : nat) (acc X : R),
    (1 <= k)%nat -> close u k acc X ->
    close u (k + List.length ys) (fold_left (fun a y => rnd (a + y)) ys acc)
          (X + rsum xs).
Proof.
  induction 1 as [|y x ys xs Hyx _ IH]; intros k acc X Hk Hacc.
  - cbn. now rewrite Nat.add_0_r, Rplus_0_r.
  - cbn [fold_left List.length]. rewrite rsum_cons.
    replace (k + S (List.length ys))%nat with (S k + List.length ys)%nat by lia.
    rewrite <- Rplus_assoc. apply IH; [lia|].
    apply add_step; [exact Hacc|]. now apply (close_mono 1 k).
Qed.

(** The rounded sum of approximated non-negative terms. *)
Lemma total_rounded (ys xs : list R) :
  Forall2 (close u 1) ys xs ->
  close u (List.length ys) (total (arith := rounded rnd) ys) (rsum xs).
Proof.
  intros [|y x ys' xs' Hyx Hrest].
  - cbn. split; [lra|]. rewrite Rminus_diag, Rabs_R0. lra.
  - cbn [total List.length]. rewrite rsum_cons.
    apply (fold_rounded ys' xs' Hrest 1 y x); [lia | exact Hyx].
Qed.

(** The mean of the scorer against the exact weighted sum. *)
Lemma mean_score_error (p : list R) :
  Forall (fun x => 0 <= x) p ->
  close u 10 (mean_score (arith := rounded rnd) p) (exact_mean p).
Proof.
  intros Hp. unfold mean_score, exact_mean, prob.
  cbn [num_mul num_of_nat num_zero rounded].
  set (ys := map _ buckets).
  replace 10%nat with (List.length ys) by (unfold ys; now rewrite length_map).
  apply total_rounded. apply Forall2_map_same. intros i Hi.
  apply close_rnd. pose proof (bucket_range i Hi).
  pose proof (nth_nonneg p (i - 1) Hp). nra.
Qed.

(** One term [(i - mean)² · p[i-1]] of the variance, as computed. *)
Lemma square_term (I m mh q : R) :
  u <= 1 / 10000 ->
  1 <= I <= 10 -> 1 <= m <= 10 -> Rabs (mh - m) <= 200 * u -> 0 <= q ->
  let y := rnd (rnd (rnd (I - mh) * rnd (I - mh)) * q) in
  0 <= y /\ Rabs (y - (I - m) * (I - m) * q) <= 3950 * u * q.
Proof.
  intros Hu HI Hm Hmh Hq y. subst y. pose proof u_nonneg as Hu0.
  apply Rabs_bound in Hmh.
  set (d := I - m). set (t := I - mh). set (dh := rnd t).
  assert (Hd : -9 <= d <= 9) by (unfold d; lra).
  assert (Ht : - (200 * u) <= t - d <= 200 * u) by (unfold t, d; lra).
  assert (Hdh : - (210 * u) <= dh - d <= 210 * u).
  { pose proof (rnd_within t (902 / 100)) as E. fold dh in E.
    assert (Habs : Rabs t <= 902 / 100) by (apply Rabs_le; lra).
    specialize (E Habs). lra. }
  set (s := dh * dh).
  assert (Hs : - (3785 * u) <= s - d * d <= 3785 * u).
  { unfold s. replace (dh * dh - d * d) with ((dh - d) * (dh + d)) by ring.
    assert (Ha : Rabs (dh - d) <= 210 * u) by (apply Rabs_le; lra).
    assert (Hb : Rabs (dh + d) <= 18021 / 1000) by (apply Rabs_le; lra).
    apply Rabs_bound. rewrite Rabs_mult.
    eapply Rle_trans.
    - apply Rmult_le_compat; [apply Rabs_pos | apply Rabs_pos | exact Ha | exact Hb].
    - lra. }
  assert (Hs0 : 0 <= s <= 814 / 10).
  { split; [unfold s; nra|]. nra. }
  set (qh := rnd s).
  assert (Hqh : 0 <= qh <= (1 + u) * s) by (apply rnd_nonneg; lra).
  pose proof (rnd_within s s) as Hqs. fold qh in Hqs.
  rewrite (Rabs_pos_eq s (proj1 Hs0)) in Hqs. specialize (Hqs (Rle_refl s)).
  assert (Hus : u * s <= 814 / 10 * u) by (destruct Hs0; nra).
  assert (Hqd : - (3867 * u) <= qh - d * d <= 3867 * u) by lra.
  set (z := qh * q).
  assert (Hz : 0 <= z <= 815 / 10 * q) by (unfold z; nra).
  assert (Hy : 0 <= rnd z <= (1 + u) * z) by (apply rnd_nonneg; lra).
  pose proof (rnd_within z z) as Hyz.
  rewrite (Rabs_pos_eq z (proj1 Hz)) in Hyz. specialize (Hyz (Rle_refl z)).
  split; [lra|].
  apply Rabs_le.
  assert (Hzd : - (3867 * u * q) <= z - d * d * q <= 3867 * u * q)
    by (unfold z; nra).
  assert (Huz : u * z <= 815 / 10 * u * q) by nra.
  nra.
Qed.

Section Distribution.

Variable p : list R.
Hypothesis Hp : distribution p.

Lemma probs_nonneg (i : nat) : 0 <= nth i p 0.
Proof. apply nth_nonneg. exact (proj1 (proj2 Hp)). Qed.

(** The ten probabilities, bucket by bucket, sum to one. *)
Lemma probs_total : rsum (map (fun i => nth (i - 1) p 0) buckets) = 1.
Proof.
  destruct Hp as (Hlen & _ & Hsum).
  destruct p as [|p1 [|p2 [|p3 [|p4 [|p5 [|p6 [|p7 [|p8 [|p9 [|p10 [|p11 l]]]]]]]]]]];
    try discriminate Hlen.
  exact Hsum.
Qed.

Lemma exact_mean_range : 1 <= exact_mean p <= 10.
Proof.
  unfold exact_mean. split.
  - rewrite <- probs_total. apply rsum_le. intros i Hi.
    pose proof (bucket_range i Hi). pose proof (probs_nonneg (i - 1)). nra.
  - replace 10 with (10 * rsum (map (fun i => nth (i - 1) p 0) buckets))
      by (rewrite probs_total; ring).
    rewrite <- rsum_scale. apply rsum_le. intros i Hi.
    pose proof (bucket_range i Hi). pose proof (probs_nonneg (i - 1)). nra.
Qed.

Lemma exact_variance_range : 0 <= exact_variance (exact_mean p) p <= 81.
Proof.
  pose proof exact_mean_range as Hm. unfold exact_variance.
  set (m := exact_mean p) in *. split.
  - apply rsum_nonneg. intros i Hi.
    apply Rmult_le_pos; [|apply probs_nonneg].
    exact (Rle_0_sqr (INR i - m)).
  - replace 81 with (81 * rsum (map (fun i => nth (i - 1) p 0) buckets))
      by (rewrite probs_total; ring).
    rewrite <- rsum_scale. apply rsum_le. intros i Hi.
    pose proof (bucket_range i Hi). pose proof (probs_nonneg (i - 1)).
    assert (Hd : -9 <= INR i - m <= 9) by lra.
    assert (Hsq : (INR i - m) * (INR i - m) <= 81) by nra.
    apply Rmult_le_compat_r; assumption.
Qed.

Hypothesis Hu : u <= 1 / 10000.

Lemma mean_abs_error :
  Rabs (mean_score (arith := rounded rnd) p - exact_mean p) <= 200 * u.
Proof.
  destruct (mean_score_error p (proj1 (proj2 Hp))) as [_ E].
  pose proof exact_mean_range. pose proof u_nonneg.
  assert (Hg : growth u 10 <= 2 * INR 10 * u).
  { apply growth_linear. cbn. lra. }
  cbn in Hg. pose proof (growth_nonneg 10). nra.
Qed.

(** The variance of the scorer against the exact variance. *)
Lemma variance_error :
  0 <= variance (arith := rounded rnd) p
  /\ Rabs (variance (arith := rounded rnd) p - exact_variance (exact_mean p) p)
     <= 5600 * u.
Proof.
  pose proof u_nonneg as Hu0. pose proof exact_mean_range as Hm.
  pose proof mean_abs_error as Hmh. pose proof exact_variance_range as HV.
  unfold variance, exact_variance, square, prob in *.
  cbn [num_mul num_sub num_of_nat num_zero rounded] in *.
  set (m := exact_mean p) in *.
  set (mh := mean_score (arith := rounded rnd) p) in *.
  set (fh := fun i => rnd (rnd (rnd (INR i - mh) * rnd (INR i - mh))
                           * nth (i - 1) p 0)).
  set (f := fun i => (INR i - m) * (INR i - m) * nth (i - 1) p 0) in *.
  assert (Hterm : forall i, In i buckets ->
             0 <= fh i /\ Rabs (fh i - f i) <= 3950 * u * nth (i - 1) p 0).
  { intros i Hi. apply (square_term (INR i) m mh (nth (i - 1) p 0)); auto.
    - now apply bucket_range.
    - apply probs_nonneg. }
  assert (HS : Rabs (rsum (map fh buckets) - rsum (map f buckets)) <= 3950 * u).
  { replace (3950 * u)
      with (3950 * u * rsum (map (fun i => nth (i - 1) p 0) buckets))
      by (rewrite probs_total; ring).
    apply rsum_abs_diff. intros i Hi. now apply Hterm. }
  assert (HT : close u 10 (total (arith := rounded rnd) (map fh buckets))
                     (rsum (map fh buckets))).
  { replace 10%nat with (List.length (map fh buckets)) by (now rewrite length_map).
    apply total_rounded. apply Forall2_map_same. intros i Hi.
    destruct (Hterm i Hi) as [H0 _]. split; [exact H0|].
    rewrite Rminus_diag, Rabs_R0. pose proof (growth_nonneg 1). nra. }
  destruct HT as [HS0 HT].
  assert (Hg : growth u 10 <= 2 * INR 10 * u) by (apply growth_linear; cbn; lra).
  cbn in Hg. pose proof (growth_nonneg 10) as Hg0.
  apply Rabs_bound in HS, HT.
  set (S := rsum (map fh buckets)) in *. set (V := rsum (map f buckets)) in *.
  set (Vh := total (arith := rounded rnd) (map fh buckets)) in *.
  assert (HgS : growth u 10 * S <= 20 * u * (814 / 10)) by nra.
  split; [nra|]. apply Rabs_le. lra.
Qed.

(** The standard deviation of the scorer against the exact one. *)
Lemma std_score_error :
  Rabs (std_score (arith := rounded rnd) p - sqrt (exact_variance (exact_mean p) p))
  <= sqrt (5600 * u) + 10 * u.
Proof.
  destruct variance_error as [HV0 HV]. pose proof exact_variance_range as HVr.
  pose proof u_nonneg as Hu0. unfold std_score.
  set (Vh := variance (arith := rounded rnd) p) in *.
  set (V := exact_variance (exact_mean p) p) in *.
  cbn [num_sqrt rounded].
  assert (Hsq : sqrt Vh <= 10).
  { replace 10 with (sqrt (10 * 10)) by (apply sqrt_square; lra).
    apply sqrt_le_1_alt. apply Rabs_bound in HV. lra. }
  pose proof (rnd_within (sqrt Vh) 10) as Hr1.
  rewrite (Rabs_pos_eq _ (sqrt_pos Vh)) in Hr1. specialize (Hr1 Hsq).
  pose proof (sqrt_diff Vh V HV0 (proj1 HVr)) as Hd.
  assert (Hd' : sqrt (Rabs (Vh - V)) <= sqrt (5600 * u))
    by (now apply sqrt_le_1_alt).
  apply Rabs_bound in Hd. apply Rabs_le. lra.
Qed.

End Distribution.

Variable K : framework R.

(** C1: in rounded arithmetic of relative error [u], when the image
    decodes and the network predicts a probability distribution [p] over
    the ten buckets, the scorer returns, and the mean it returns is the
    weighted sum [Σ i·p[i-1]] within the relative error of ten roundings,
    [(1+u)^10 - 1]; in exact arithmetic ([u = 0]) the two are equal. *)
Theorem mean_within_tolerance (image_path : string) (m : model K) (w : world)
    (img : image K) (p : list R) (rest : list (list R)) :
  distribution p ->
  read_img K image_path (224%nat, 224%nat) = Returns img ->
  forward K (net m) (loaded m) (prepared K img) = Returns (p :: rest) ->
  exists mean std w',
    evaluate_image (arith := rounded rnd) K image_path m w = (Ok (mean, std), w')
    /\ Rabs (mean - exact_mean p) <= ((1 + u) ^ 10 - 1) * exact_mean p.
Proof.
  intros Hp Hi Hf. eexists _, _, _.
  split; [exact (evaluate_image_returns K _ _ _ _ _ _ Hi Hf)|].
  exact (proj2 (mean_score_error p (proj1 (proj2 Hp)))).
Qed.

(** C2: in rounded arithmetic of relative error [u], at most 1/10000, when
    the image decodes and the network predicts a probability distribution
    [p] over the ten buckets, the scorer returns, and the standard
    deviation it returns is the square root of [Σ (i − mean)²·p[i-1]],
    [mean] the exact weighted sum [Σ i·p[i-1]], within
    [sqrt(5600·u) + 10·u]; in exact arithmetic ([u = 0]) the two are
    equal. *)
Theorem std_within_tolerance (image_path : string) (m : model K) (w : world)
    (img : image K) (p : list R) (rest : list (list R)) :
  u <= 1 / 10000 ->
  distribution p ->
  read_img K image_path (224%nat, 224%nat) = Returns img ->
  forward K (net m) (loaded m) (prepared K img) = Returns (p :: rest) ->
  exists mean std w',
    evaluate_image (arith := rounded rnd) K image_path m w = (Ok (mean, std), w')
    /\ Rabs (std - sqrt (exact_variance (exact_mean p) p))
       <= sqrt (5600 * u) + 10 * u.
Proof.
  intros Hu Hp Hi Hf. eexists _, _, _.
  split; [exact (evaluate_image_returns K _ _ _ _ _ _ Hi Hf)|].
  now apply std_score_error.
Qed.

End Rounded.

(** *** Two roundings *)

Lemma identity_rounding : rounding (fun x => x) 0.
Proof.
  split; [lra|]. intros x. rewrite Rminus_diag, Rabs_R0. lra.
Qed.

Lemma biased_rounding (u : R) : 0 <= u -> rounding (biased u) u.
Proof.
  intros Hu. split; [exact Hu|]. intros x. unfold biased.
  replace (x * (1 + u) - x) with (u * x) by ring.
  rewrite Rabs_mult, (Rabs_pos_eq u Hu). lra.
Qed.

Lemma binary64_unit_roundoff_range :
  0 <= binary64_unit_roundoff <= 12 / 10 ^ 17.
Proof.
  unfold binary64_unit_roundoff. split.
  - apply Rlt_le, Rinv_0_lt_compat, pow_lt. lra.
  - apply (Rmult_le_reg_l (2 ^ 53)); [apply pow_lt; lra|].
    rewrite Rinv_r by (apply pow_nonzero; lra). lra.
Qed.

(** In exact real arithmetic the scorer computes the two statistics of the
    specification. *)
Lemma exact_arithmetic_scores (p : list R) :
  distribution p ->
  mean_score (arith := rounded (fun x => x)) p = exact_mean p
  /\ std_score (arith := rounded (fun x => x)) p
     = sqrt (exact_variance (exact_mean p) p).
Proof.
  intros Hp. split.
  - destruct (mean_score_error _ 0 identity_rounding p (proj1 (proj2 Hp))) as [_ E].
    unfold growth in E. replace ((1 + 0) ^ 10 - 1) with 0 in E by (cbn; ring).
    rewrite Rmult_0_l in E. apply Rabs_bound in E. lra.
  - assert (E := std_score_error _ 0 identity_rounding p Hp ltac:(lra)).
    rewrite Rmult_0_r, sqrt_0 in E. apply Rabs_bound in E. lra.
Qed.

(** With the unit roundoff of binary64, the mean is within 1e-13 and the
    standard deviation within 1e-6 of the exact statistics. *)
Lemma binary64_tolerance (rnd : R -> R) (p : list R) :
  rounding rnd binary64_unit_roundoff ->
  distribution p ->
  Rabs (mean_score (arith := rounded rnd) p - exact_mean p) <= 1 / 10 ^ 13
  /\ Rabs (std_score (arith := rounded rnd) p
           - sqrt (exact_variance (exact_mean p) p)) <= 1 / 10 ^ 6.
Proof.
  intros Hr Hp. pose proof binary64_unit_roundoff_range as Hu.
  set (u := binary64_unit_roundoff) in *.
  assert (Hu' : u <= 1 / 10000) by lra.
  split.
  - pose proof (mean_abs_error rnd u Hr p Hp Hu'). lra.
  - pose proof (std_score_error rnd u Hr p Hp Hu') as E.
    assert (Hs : sqrt (5600 * u) <= 9 / 10 ^ 7).
    { replace (9 / 10 ^ 7) with (sqrt ((9 / 10 ^ 7) * (9 / 10 ^ 7)))
        by (apply sqrt_square; lra).
      apply sqrt_le_1_alt. lra. }
    lra.
Qed.

Local Close Scope R_scope.

(* ================================================================= *)
(** ** Sample runs of the theorems *)

Lemma tenths_distribution : distribution tenths.
Proof.
  split; [reflexivity|]. split.
  - unfold tenths. cbn [repeat]. repeat constructor; lra.
  - unfold tenths, rsum. cbn [repeat fold_right]. lra.
Qed.

Lemma usage_error_witness :
  List.length (argv no_argument) <> 2%nat
  /\ let o := run (predicting uniform) no_argument in
     printed o = usage ++ newline
     /\ status o = 1%Z
     /\ ~ score_output (printed o)
     /\ ~ In BuildBackbone (calls o) /\ ~ In BuildModel (calls o)
     /\ (forall p, ~ In (LoadWeights p) (calls o))
     /\ (forall p, ~ In (LoadImg p) (calls o)).
Proof.
  assert (Hlen : List.length (argv no_argument) <> 2%nat) by (cbn; lia).
  split; [exact Hlen|].
  exact (usage_error (predicting uniform) no_argument Hlen).
Defined.


Lemma uniform_scores_witness :
  exists mean std w',
    evaluate_image (predicting uniform) "photo.png"
      (sample_model (predicting uniform) tt) boot = (Ok (mean, std), w')
    /\ fmt2f mean = "5.50" /\ fmt2f std = "2.87".
Proof.
  apply (uniform_scores (predicting uniform) "photo.png"
           (sample_model (predicting uniform) tt) boot tt []); reflexivity.
Defined.

Lemma point_mass_scores_witness :
  (evaluate_image (predicting (point_mass 1)) "photo.png"
     (sample_model (predicting (point_mass 1)) tt) boot
   = (Ok (1%float, 0%float), World "" [LoadImg "photo.png"; Predict])
   /\ score_line 1%float 0%float = "1.00,0.00")
  /\ (evaluate_image (predicting (point_mass 10)) "photo.png"
        (sample_model (predicting (point_mass 10)) tt) boot
      = (Ok (10%float, 0%float), World "" [LoadImg "photo.png"; Predict])
      /\ score_line 10%float 0%float = "10.00,0.00").
Proof.
  split.
  - apply (proj1 (point_mass_scores (predicting (point_mass 1)) "photo.png"
                    (sample_model (predicting (point_mass 1)) tt) boot tt []
                    eq_refl)).
    reflexivity.
  - apply (proj2 (point_mass_scores (predicting (point_mass 10)) "photo.png"
                    (sample_model (predicting (point_mass 10)) tt) boot tt []
                    eq_refl)).
    reflexivity.
Defined.

Lemma weights_file_location_witness :
  isabs (file one_argument) = true
  /\ List.length (argv one_argument) = 2%nat
  /\ script_directory one_argument = "/opt/nima"
  /\ In (LoadWeights "/opt/nima/model/mobilenet_weights.h5")
        (calls (run (predicting uniform) one_argument))
  /\ run (predicting uniform) (started_from "/tmp" one_argument)
     = run (predicting uniform) one_argument.
Proof.
  assert (Habs : isabs (file one_argument) = true) by reflexivity.
  assert (Hlen : List.length (argv one_argument) = 2%nat) by reflexivity.
  destruct (weights_file_location (predicting uniform) one_argument)
    as (_ & Hread & _ & _ & Hcwd & _ & _).
  split; [exact Habs|]. split; [exact Hlen|]. split; [reflexivity|].
  split; [exact (Hread Hlen) | exact (proj2 (Hcwd Habs "/tmp"))].
Defined.


Lemma weights_before_image_witness :
  let K : framework float :=
    answering (Throws "OSError") (Throws "UnidentifiedImageError") (Returns []) in
  List.length (argv one_argument) = 2%nat
  /\ read_weights K nima_network (weights_file one_argument) = Throws "OSError"
  /\ read_img K "photo.png" (224%nat, 224%nat) = Throws "UnidentifiedImageError"
  /\ ends_with (run K one_argument) "OSError"
  /\ forall image_path, ~ In (LoadImg image_path) (calls (run K one_argument)).
Proof.
  intros K. split; [reflexivity|]. split; [reflexivity|]. split; [reflexivity|].
  exact (proj2 (weights_before_image K one_argument) "OSError" eq_refl eq_refl).
Defined.

Lemma mean_within_tolerance_witness :
  let u := binary64_unit_roundoff in
  rounding (biased u) u
  /\ distribution tenths
  /\ exists mean std w',
       evaluate_image (arith := rounded (biased u)) (predicting tenths) "photo.png"
         (sample_model (predicting tenths) tt) boot = (Ok (mean, std), w')
       /\ (Rabs (mean - exact_mean tenths)
           <= ((1 + u) ^ 10 - 1) * exact_mean tenths)%R.
Proof.
  intros u.
  assert (Hr : rounding (biased u) u)
    by exact (biased_rounding u (proj1 binary64_unit_roundoff_range)).
  split; [exact Hr|]. split; [exact tenths_distribution|].
  exact (mean_within_tolerance (biased u) u Hr (predicting tenths) "photo.png"
           (sample_model (predicting tenths) tt) boot tt tenths []
           tenths_distribution eq_refl eq_refl).
Defined.

Lemma std_within_tolerance_witness :
  let u := binary64_unit_roundoff in
  rounding (biased u) u
  /\ (u <= 1 / 10000)%R
  /\ distribution tenths
  /\ exists mean std w',
       evaluate_image (arith := rounded (biased u)) (predicting tenths) "photo.png"
         (sample_model (predicting tenths) tt) boot = (Ok (mean, std), w')
       /\ (Rabs (std - sqrt (exact_variance (exact_mean tenths) tenths))
           <= sqrt (5600 * u) + 10 * u)%R.
Proof.
  intros u.
  assert (Hr : rounding (biased u) u)
    by exact (biased_rounding u (proj1 binary64_unit_roundoff_range)).
  assert (Hu : (u <= 1 / 10000)%R)
    by (pose proof binary64_unit_roundoff_range; unfold u; lra).
  split; [exact Hr|]. split; [exact Hu|]. split; [exact tenths_distribution|].
  exact (std_within_tolerance (biased u) u Hr (predicting tenths) "photo.png"
           (sample_model (predicting tenths) tt) boot tt tenths []
           Hu tenths_distribution eq_refl eq_refl).
Defined.

(* ================================================================= *)
(** ** Further properties of a run *)

Section Cases.

Context {A : Type} {arith : Arith A} {format : Format A}.
Variable K : framework A.

(** The six ways a run can go. *)
Lemma run_cases (P : process) :
  (List.length (argv P) <> 2%nat
   /\ run K P = Outcome 1 (usage ++ newline) [] (Some (SystemExit 1)))
  \/ exists script image_path,
       argv P = [script; image_path]
       /\ ((exists name,
              read_weights K nima_network (weights_file P) = Throws name
              /\ run K P = Outcome 1 "" (firstn 3 (full_calls P)) (Some (Raised name)))
           \/ exists wv,
                read_weights K nima_network (weights_file P) = Returns wv
                /\ ((exists name,
                       read_img K image_path (224%nat, 224%nat) = Throws name
                       /\ run K P = Outcome 1 "" (firstn 4 (full_calls P))
                                      (Some (Raised name)))
                    \/ exists img,
                         read_img K image_path (224%nat, 224%nat) = Returns img
                         /\ ((exists name,
                                forward K nima_network (Some wv) (prepared K img)
                                = Throws name
                                /\ run K P = Outcome 1 "" (full_calls P)
                                               (Some (Raised name)))
                             \/ (forward K nima_network (Some wv) (prepared K img)
                                 = Returns []
                                 /\ run K P = Outcome 1 "" (full_calls P)
                                                (Some (Raised "IndexError")))
                             \/ exists scores rest,
                                  forward K nima_network (Some wv) (prepared K img)
                                  = Returns (scores :: rest)
                                  /\ run K P
                                     = Outcome 0
                                         (score_line (mean_score scores)
                                                     (std_score scores) ++ newline)
                                         (full_calls P) None))).
Proof.
  destruct (Nat.eq_dec (List.length (argv P)) 2) as [Hlen|Hlen].
  - right. destruct (two_entries _ Hlen) as (script & image_path & Hargv).
    exists script, image_path. split; [exact Hargv|].
    rewrite (run_scoring K P script image_path Hargv). cbv zeta.
    unfold full_calls. rewrite Hargv. cbn [nth firstn].
    destruct (read_weights K nima_network (weights_file P)) as [wv|n1];
      [right; exists wv; split; [reflexivity|] | left; now exists n1].
    destruct (read_img K image_path (224%nat, 224%nat)) as [img|n2];
      [right; exists img; split; [reflexivity|] | left; now exists n2].
    destruct (forward K nima_network (Some wv) (prepared K img))
      as [[|scores rest]|n3].
    + right. left. now split.
    + right. right. now exists scores, rest.
    + left. now exists n3.
  - left. split; [exact Hlen | now apply run_usage].
Qed.

End Cases.

(** Taking a run apart along [run_cases]. *)
Ltac run_cases_of K P :=
  destruct (run_cases K P)
    as [[Hlen Erun]
       |(script & image_path & Hargv &
         [(n1 & Ew & Erun)
         |(wv & Ew &
           [(n2 & Ei & Erun)
           |(img & Ei &
             [(n3 & Ef & Erun)
             |[(Ef & Erun)
              |(scores & rest & Ef & Erun)]])])])];
  rewrite Erun; cbn [status printed calls uncaught].

Section Outcomes.

Context {A : Type} {arith : Arith A} {format : Format A}.
Variable K : framework A.

(** X1: a run exits with status 0 exactly when the command line has one
    argument, the weights file and the image file are read and the forward
    pass returns a batch with at least one row; otherwise it exits with
    status 1.  Status 0 means no uncaught exception, and the run ends in
    [SystemExit] only on a wrong command line, with code 1. *)
Theorem success_criterion (P : process) :
  let o := run K P in
  (status o = 0%Z <->
   exists script image_path wv img scores rest,
     argv P = [script; image_path]
     /\ read_weights K nima_network (weights_file P) = Returns wv
     /\ read_img K image_path (224%nat, 224%nat) = Returns img
     /\ forward K nima_network (Some wv) (prepared K img) = Returns (scores :: rest))
  /\ (status o = 0%Z \/ status o = 1%Z)
  /\ (status o = 0%Z <-> uncaught o = None)
  /\ (forall c, uncaught o = Some (SystemExit c) <->
                c = 1%Z /\ List.length (argv P) <> 2%nat).
Proof.
  intros o. subst o.
  assert (Hno : forall script image_path,
             argv P = [script; image_path] ->
             forall (e : option exn) (c : Z),
               (forall d, e <> Some (SystemExit d)) ->
               e = Some (SystemExit c) <->
               c = 1%Z /\ List.length (argv P) <> 2%nat).
  { intros s ip E e c He. rewrite E. split; [intros E'; now apply He in E'|].
    intros [_ Hn]. now contradiction Hn. }
  run_cases_of K P;
    (split; [|split; [|split]]);
    try (now right); try (now left);
    try (split; discriminate);
    try (intros c; apply (Hno _ _ Hargv); discriminate).
  - split; [discriminate|].
    intros (s' & ip & _ & _ & _ & _ & E & _). rewrite E in Hlen.
    exfalso. now apply Hlen.
  - intros c. split; [intros [= <-]; now split | now intros [-> _]].
  - split; [discriminate|].
    intros (s' & ip & wv' & _ & _ & _ & _ & E & _). rewrite Ew in E. discriminate E.
  - split; [discriminate|].
    intros (s' & ip & wv' & img' & _ & _ & E & _ & Ei' & _).
    rewrite Hargv in E. injection E as _ <-. rewrite Ei in Ei'. discriminate Ei'.
  - split; [discriminate|].
    intros (s' & ip & wv' & img' & sc & rs & E & Ew' & Ei' & Ef').
    rewrite Hargv in E. injection E as _ <-.
    rewrite Ew in Ew'. injection Ew' as <-.
    rewrite Ei in Ei'. injection Ei' as <-.
    rewrite Ef in Ef'. discriminate Ef'.
  - split; [discriminate|].
    intros (s' & ip & wv' & img' & sc & rs & E & Ew' & Ei' & Ef').
    rewrite Hargv in E. injection E as _ <-.
    rewrite Ew in Ew'. injection Ew' as <-.
    rewrite Ei in Ei'. injection Ei' as <-.
    rewrite Ef in Ef'. discriminate Ef'.
  - split; [intros _|reflexivity].
    now exists script, image_path, wv, img, scores, rest.
  - split; reflexivity.
Qed.

(** X2: a run opens an image file exactly when the command line has one
    argument and the weights file was read, and the file it opens is
    [sys.argv[1]] as given; it runs the network exactly when, moreover,
    the image file was read. *)
Theorem image_and_prediction (P : process) :
  let o := run K P in
  (forall p, In (LoadImg p) (calls o) <->
             List.length (argv P) = 2%nat
             /\ nth_error (argv P) 1 = Some p
             /\ exists wv, read_weights K nima_network (weights_file P) = Returns wv)
  /\ (In Predict (calls o) <->
      exists image_path wv img,
        List.length (argv P) = 2%nat
        /\ nth_error (argv P) 1 = Some image_path
        /\ read_weights K nima_network (weights_file P) = Returns wv
        /\ read_img K image_path (224%nat, 224%nat) = Returns img).
Proof.
  intros o. subst o.
  run_cases_of K P; unfold full_calls; try rewrite Hargv;
    cbn [nth nth_error firstn List.length In].
  - split; [intros p|]; (split; [contradiction|]).
    + intros (E & _). contradiction.
    + intros (ip & wv & img & E & _). contradiction.
  - split; [intros p|]; split.
    + intros [E|[E|[E|[]]]]; discriminate E.
    + intros (_ & _ & wv & E). rewrite Ew in E. discriminate E.
    + intros [E|[E|[E|[]]]]; discriminate E.
    + intros (ip & wv & img & _ & _ & E & _). rewrite Ew in E. discriminate E.
  - split; [intros p|]; split.
    + intros [E|[E|[E|[E|[]]]]]; try discriminate E.
      injection E as <-. eauto.
    + intros (_ & [= <-] & _). auto 6.
    + intros [E|[E|[E|[E|[]]]]]; discriminate E.
    + intros (ip & wv' & img & _ & [= <-] & _ & E). rewrite Ei in E. discriminate E.
  - split; [intros p|]; split.
    + intros [E|[E|[E|[E|[E|[]]]]]]; try discriminate E.
      injection E as <-. eauto.
    + intros (_ & [= <-] & _). auto 6.
    + intros _. exists image_path, wv, img. auto.
    + intros _. auto 6.
  - split; [intros p|]; split.
    + intros [E|[E|[E|[E|[E|[]]]]]]; try discriminate E.
      injection E as <-. eauto.
    + intros (_ & [= <-] & _). auto 6.
    + intros _. exists image_path, wv, img. auto.
    + intros _. auto 6.
  - split; [intros p|]; split.
    + intros [E|[E|[E|[E|[E|[]]]]]]; try discriminate E.
      injection E as <-. eauto.
    + intros (_ & [= <-] & _). auto 6.
    + intros _. exists image_path, wv, img. auto.
    + intros _. auto 6.
Qed.

(** X3: the framework calls of a run are the first zero, three, four or
    five of: build the backbone, build the model, load the weights file,
    load the image named by [sys.argv[1]], predict.  So every call is made
    at most once, none is retried, and the order never changes. *)
Theorem calls_in_order (P : process) :
  (exists n, In n [0; 3; 4; 5]%nat /\ calls (run K P) = firstn n (full_calls P))
  /\ NoDup (calls (run K P)).
Proof.
  assert (Hnd : forall n, NoDup (firstn n (full_calls P))).
  { intros n. unfold full_calls.
    assert (Hfull : NoDup [BuildBackbone; BuildModel; LoadWeights (weights_file P);
                           LoadImg (nth 1 (argv P) ""); Predict]).
    { repeat constructor; cbn [In]; intuition discriminate. }
    revert n. generalize dependent
      [BuildBackbone; BuildModel; LoadWeights (weights_file P);
       LoadImg (nth 1 (argv P) ""); Predict].
    intros l Hl. induction Hl as [|x l Hx Hl IH]; intros [|n]; cbn; try constructor.
    - intros Hin. apply Hx. revert Hin. clear. revert n.
      induction l as [|y l IH]; intros [|n]; cbn; try contradiction.
      intros [E|Hin]; [now left | right; eauto].
    - apply IH. }
  run_cases_of K P.
  - split; [exists 0%nat; cbn; auto | constructor].
  - split; [exists 3%nat; cbn [In]; auto | apply Hnd].
  - split; [exists 4%nat; cbn [In]; auto | apply Hnd].
  - split; [exists 5%nat; cbn [In]; auto 6 | apply (Hnd 5%nat)].
  - split; [exists 5%nat; cbn [In]; auto 6 | apply (Hnd 5%nat)].
  - split; [exists 5%nat; cbn [In]; auto 6 | apply (Hnd 5%nat)].
Qed.

(** X4: when the weights file and the image file are read but the forward
    pass raises, the run ends with that exception, status 1 and an empty
    standard output; when the forward pass returns an empty batch, indexing
    its first row raises [IndexError], with the same effect. *)
Theorem prediction_failure (P : process) (script_name image_file : string)
    (values : weight_values K) (picture : image K) :
  argv P = [script_name; image_file] ->
  read_weights K nima_network (weights_file P) = Returns values ->
  read_img K image_file (224%nat, 224%nat) = Returns picture ->
  let o := run K P in
  (forall name,
      forward K nima_network (Some values) (prepared K picture) = Throws name ->
      ends_with o name /\ printed o = "" /\ calls o = full_calls P)
  /\ (forward K nima_network (Some values) (prepared K picture) = Returns [] ->
      ends_with o "IndexError" /\ printed o = "" /\ calls o = full_calls P).
Proof.
  intros Hargv' Ew' Ei' o. subst o. unfold ends_with.
  run_cases_of K P.
  - rewrite Hargv' in Hlen. now contradiction Hlen.
  - rewrite Ew in Ew'. discriminate Ew'.
  - rewrite Hargv in Hargv'. injection Hargv' as _ <-.
    rewrite Ei in Ei'. discriminate Ei'.
  - rewrite Hargv in Hargv'. injection Hargv' as _ <-.
    rewrite Ew in Ew'. injection Ew' as <-. rewrite Ei in Ei'. injection Ei' as <-.
    rewrite Ef. split; [intros name [= <-]; auto | discriminate].
  - rewrite Hargv in Hargv'. injection Hargv' as _ <-.
    rewrite Ew in Ew'. injection Ew' as <-. rewrite Ei in Ei'. injection Ei' as <-.
    rewrite Ef. split; [discriminate | auto].
  - rewrite Hargv in Hargv'. injection Hargv' as _ <-.
    rewrite Ew in Ew'. injection Ew' as <-. rewrite Ei in Ei'. injection Ei' as <-.
    rewrite Ef. split; discriminate.
Qed.

End Outcomes.

(* ================================================================= *)
(** ** Further properties of the printed line *)

Section Line.

Lemma count_char_app (c : ascii) (a b : string) :
  count_char c (a ++ b) = (count_char c a + count_char c b)%nat.
Proof.
  induction a as [|x a IH]; cbn; [reflexivity|]. rewrite IH. lia.
Qed.

Lemma count_char_digits (c : ascii) (s : string) :
  is_digit c = false -> all_digits s = true -> count_char c s = 0%nat.
Proof.
  intros Hc. induction s as [|x s IH]; cbn; [reflexivity|].
  intros Hall. apply andb_true_iff in Hall as [Hx Hs].
  rewrite (IH Hs). destruct (Ascii.eqb_spec x c) as [->|_]; [|reflexivity].
  rewrite Hc in Hx. discriminate Hx.
Qed.

(** No [.2f] text holds a comma or a line terminator. *)
Lemma format_2f_plain (x : float) (c : ascii) :
  c = ","%char \/ c = "010"%char ->
  count_char c (float64.format_2f x) = 0%nat.
Proof.
  intros Hc.
  assert (Hnd : is_digit c = false) by (destruct Hc as [->| ->]; reflexivity).
  assert (Hsign : forall s, count_char c (float64.sign s) = 0%nat)
    by (intros [|]; destruct Hc as [->| ->]; reflexivity).
  unfold float64.format_2f.
  destruct (Prim2SF x) as [s|s| |s m e].
  - rewrite count_char_app, Hsign. destruct Hc as [->| ->]; reflexivity.
  - rewrite count_char_app, Hsign. destruct Hc as [->| ->]; reflexivity.
  - destruct Hc as [->| ->]; reflexivity.
  - unfold float64.fixed2. rewrite !count_char_app, Hsign.
    destruct (decimal_digits (float64.hundredths m e / 100)) as [_ Hall].
    rewrite (count_char_digits c _ Hnd Hall).
    assert (Hd : forall n, count_char c (String (float64.digit n) "") = 0%nat).
    { intros n. apply (count_char_digits c _ Hnd). cbn [all_digits].
      now rewrite digit_is_digit. }
    assert (Hdot : count_char c "." = 0%nat)
      by (destruct Hc as [->| ->]; reflexivity).
    rewrite Hdot.
    change (String (float64.digit (float64.hundredths m e / 10))
              (String (float64.digit (float64.hundredths m e)) ""))
      with (String (float64.digit (float64.hundredths m e / 10)) ""
            ++ String (float64.digit (float64.hundredths m e)) "").
    now rewrite count_char_app, !Hd.
Qed.

Variable K : framework float.

(** X5: the standard output of a run that exits with status 0 holds
    exactly one comma and exactly one line terminator, its last character,
    whatever the two values are (finite or not): splitting the line at the
    comma gives the mean and the standard deviation. *)
Theorem one_comma_one_line (P : process) :
  status (run K P) = 0%Z ->
  exists mean std : string,
    printed (run K P) = mean ++ "," ++ std ++ newline
    /\ count_char "," mean = 0%nat /\ count_char "," std = 0%nat
    /\ count_char "010" mean = 0%nat /\ count_char "010" std = 0%nat
    /\ count_char "," (printed (run K P)) = 1%nat
    /\ count_char "010" (printed (run K P)) = 1%nat.
Proof.
  intros Hst. revert Hst. run_cases_of K P; try discriminate. intros _.
  exists (fmt2f (mean_score scores)), (fmt2f (std_score scores)).
  unfold score_line. rewrite !append_assoc.
  assert (Hm := fun c H => format_2f_plain (mean_score scores) c H).
  assert (Hs := fun c H => format_2f_plain (std_score scores) c H).
  cbn [fmt2f float_format].
  split; [reflexivity|].
  rewrite !count_char_app.
  rewrite (Hm ","%char), (Hs ","%char), (Hm "010"%char), (Hs "010"%char) by auto.
  repeat split; reflexivity.
Qed.

End Line.

(* ================================================================= *)
(** ** Further properties of the [.2f] format *)

Section Hundredths.

Lemma round_half_even_nearest (n d : Z) :
  (0 < d)%Z ->
  let q := float64.round_half_even n d in
  (2 * Z.abs (n - q * d) <= d)%Z
  /\ ((2 * Z.abs (n - q * d) = d)%Z -> Z.even q = true).
Proof.
  intros Hd q. subst q. unfold float64.round_half_even.
  pose proof (Z.div_mod n d ltac:(lia)) as Hn.
  pose proof (Z.mod_pos_bound n d Hd) as Hr.
  set (q := (n / d)%Z) in *. set (r := (n mod d)%Z) in *.
  destruct (Z.compare_spec (2 * r) d) as [E|L|G].
  - destruct (Z.even q) eqn:Ev.
    + split; [|trivial]. replace (n - q * d)%Z with r by lia. lia.
    + split; [replace (n - (q + 1) * d)%Z with (r - d)%Z by lia; lia|].
      intros _. rewrite Z.even_add, Ev. reflexivity.
  - replace (n - q * d)%Z with r by lia. split; lia.
  - replace (n - (q + 1) * d)%Z with (r - d)%Z by lia. split; lia.
Qed.

Lemma hundredths_nonneg (m : positive) (e : Z) : (0 <= float64.hundredths m e)%Z.
Proof.
  unfold float64.hundredths. destruct e as [|p|p]; try lia.
  pose proof (Z.pow_pos_nonneg 2 (Z.pos p) ltac:(lia) ltac:(lia)) as Hp.
  destruct (round_half_even_nearest (100 * Z.pos m) (2 ^ Z.pos p) Hp) as [H _].
  cbv zeta in H. nia.
Qed.

(** X6: a finite non-zero float [±m·2^e] is written as its sign and the
    integer number of hundredths nearest to [100·m·2^e], with two digits
    after the point; a value half-way between two hundredths goes to the
    even one.  The printed number is thus within half a hundredth of the
    value computed. *)
Theorem format_2f_nearest (x : float) (s : bool) (m : positive) (e : Z) :
  Prim2SF x = S754_finite s m e ->
  exists h : Z,
    float64.format_2f x
    = float64.sign s ++ float64.decimal (h / 100) ++ "."
      ++ String (float64.digit (h / 10)) (String (float64.digit h) "")
    /\ (0 <= h)%Z
    /\ ((0 <= e)%Z -> h = (100 * Z.pos m * 2 ^ e)%Z)
    /\ ((e < 0)%Z ->
        (2 * Z.abs (100 * Z.pos m - h * 2 ^ (- e)) <= 2 ^ (- e))%Z
        /\ ((2 * Z.abs (100 * Z.pos m - h * 2 ^ (- e)) = 2 ^ (- e))%Z ->
            Z.even h = true)).
Proof.
  intros Hx. exists (float64.hundredths m e).
  split; [unfold float64.format_2f; now rewrite Hx|].
  split; [apply hundredths_nonneg|].
  unfold float64.hundredths. destruct e as [|p|p].
  - split; [intros _; cbn; lia | lia].
  - split; [reflexivity | lia].
  - split; [lia|]. intros _. cbn [Z.opp].
    apply round_half_even_nearest. apply Z.pow_pos_nonneg; lia.
Qed.

Lemma digit_inj (a b : Z) :
  float64.digit a = float64.digit b -> (a mod 10 = b mod 10)%Z.
Proof.
  unfold float64.digit. intros E.
  pose proof (Z.mod_pos_bound a 10 eq_refl). pose proof (Z.mod_pos_bound b 10 eq_refl).
  apply (f_equal nat_of_ascii) in E.
  rewrite !nat_ascii_embedding in E by lia. lia.
Qed.

Lemma decimal_inj (a b : Z) :
  (0 <= a)%Z -> (0 <= b)%Z -> float64.decimal a = float64.decimal b -> a = b.
Proof.
  unfold float64.decimal. intros Ha Hb E.
  assert (Hnil : forall n, N.to_uint n <> Decimal.Nil).
  { intros [|p]; [discriminate|]. apply DecimalPos.Unsigned.to_uint_nonnil. }
  apply (f_equal NilZero.uint_of_string) in E.
  rewrite !NilZero.usu in E by apply Hnil.
  injection E as E. apply DecimalN.Unsigned.to_uint_inj in E. lia.
Qed.

(** Two digit strings followed by a point and more agree part by part. *)
Lemma split_at_point (a b x y : string) :
  all_digits a = true -> all_digits b = true ->
  a ++ String "." x = b ++ String "." y -> a = b /\ x = y.
Proof.
  revert b. induction a as [|c a IH]; intros [|d b] Ha Hb E; cbn in *.
  - injection E as E. now split.
  - injection E as <- _. discriminate Hb.
  - injection E as -> _. discriminate Ha.
  - injection E as -> E.
    apply andb_true_iff in Ha as [_ Ha]. apply andb_true_iff in Hb as [_ Hb].
    destruct (IH b Ha Hb E) as [-> ->]. now split.
Qed.

(** Two different numbers of hundredths are never written alike. *)
Lemma fixed2_injective (h1 h2 : Z) :
  (0 <= h1)%Z -> (0 <= h2)%Z ->
  float64.fixed2 h1 = float64.fixed2 h2 -> h1 = h2.
Proof.
  intros H1 H2 E. unfold float64.fixed2 in E.
  destruct (decimal_digits (h1 / 100)) as [_ Hd1].
  destruct (decimal_digits (h2 / 100)) as [_ Hd2].
  apply (split_at_point _ _ _ _ Hd1 Hd2) in E as [Ew Ef].
  apply decimal_inj in Ew; try (apply Z.div_pos; lia).
  injection Ef as Et Eu. apply digit_inj in Et, Eu.
  pose proof (Z.div_mod h1 10 ltac:(lia)). pose proof (Z.div_mod h2 10 ltac:(lia)).
  pose proof (Z.div_mod (h1 / 10) 10 ltac:(lia)).
  pose proof (Z.div_mod (h2 / 10) 10 ltac:(lia)).
  rewrite !Z.div_div in * by lia. change (10 * 10)%Z with 100%Z in *. lia.
Qed.

Lemma fixed2_head (h : Z) :
  exists c r, float64.fixed2 h = String c r /\ is_digit c = true.
Proof.
  unfold float64.fixed2.
  destruct (decimal_digits (h / 100)) as [Hne Hall].
  destruct (float64.decimal (h / 100)) as [|c r]; [contradiction|].
  cbn in Hall. apply andb_true_iff in Hall as [Hc _].
  cbn. eauto.
Qed.

(** X7: two finite non-zero floats that are written alike have the same
    sign and the same number of hundredths: beyond the rounding to a
    hundredth, the printed text loses nothing. *)
Theorem format_2f_injective (x y : float) (s1 s2 : bool) (m1 m2 : positive)
    (e1 e2 : Z) :
  Prim2SF x = S754_finite s1 m1 e1 ->
  Prim2SF y = S754_finite s2 m2 e2 ->
  float64.format_2f x = float64.format_2f y ->
  s1 = s2 /\ float64.hundredths m1 e1 = float64.hundredths m2 e2.
Proof.
  intros Hx Hy. unfold float64.format_2f. rewrite Hx, Hy. intros E.
  destruct (fixed2_head (float64.hundredths m1 e1)) as (c1 & r1 & E1 & D1).
  destruct (fixed2_head (float64.hundredths m2 e2)) as (c2 & r2 & E2 & D2).
  assert (Hs : s1 = s2).
  { destruct s1, s2; trivial; rewrite E1, E2 in E; cbn in E.
    - injection E as <- _. discriminate D2.
    - injection E as -> _. discriminate D1. }
  split; [exact Hs|]. subst s2.
  apply fixed2_injective; try apply hundredths_nonneg.
  destruct s1; cbn in E; [now injection E | exact E].
Qed.

End Hundredths.

(* ================================================================= *)
(** ** Further properties of the weights path *)

Section Separator.

Lemma str_app (a b : list ascii) : str (a ++ b) = str a ++ str b.
Proof.
  unfold str. induction a as [|c a IH]; cbn; [reflexivity|]. now rewrite IH.
Qed.

Lemma endswith_sep_rev (l : list ascii) :
  endswith_sep (str (rev l))
  = match l with [] => false | c :: _ => is_sep c end.
Proof.
  destruct l as [|c l]; [reflexivity|].
  cbn [rev]. rewrite str_app. cbn [str string_of_list_ascii].
  now rewrite endswith_sep_app.
Qed.

Lemma dropwhile_head (f : ascii -> bool) (l : list ascii) :
  match dropwhile f l with [] => True | c :: _ => f c = false end.
Proof.
  induction l as [|c l IH]; cbn; [trivial|].
  destruct (f c) eqn:E; [exact IH | exact E].
Qed.

(** [s.rstrip('/')] does not end with a separator. *)
Lemma rstrip_sep_end (s : string) : endswith_sep (rstrip_sep s) = false.
Proof.
  unfold rstrip_sep. rewrite endswith_sep_rev.
  pose proof (dropwhile_head is_sep (rev (chars s))) as H.
  destruct (dropwhile is_sep (rev (chars s))); [reflexivity | exact H].
Qed.

(** A directory name ends with a separator only when it is made of
    separators. *)
Lemma dirname_end (p : string) :
  endswith_sep (dirname p) = true -> forallb is_sep (chars (dirname p)) = true.
Proof.
  unfold dirname.
  destruct (negb (String.eqb (upto_last_sep p) "")
            && negb (forallb is_sep (chars (upto_last_sep p))))%bool eqn:C.
  - rewrite rstrip_sep_end. discriminate.
  - intros Hend. apply andb_false_iff in C as [C|C].
    + apply negb_false_iff, String.eqb_eq in C. rewrite C in Hend. discriminate Hend.
    + now apply negb_false_iff in C.
Qed.

Lemma all_sep_end (s : string) :
  s <> "" -> forallb is_sep (chars s) = true -> endswith_sep s = true.
Proof.
  induction s as [|c s IH]; [contradiction|]. intros _ Hall.
  cbn in Hall. apply andb_true_iff in Hall as [Hc Hs].
  destruct s as [|d s]; [exact Hc|].
  cbn [endswith_sep]. apply IH; [discriminate | exact Hs].
Qed.

(** X8: when the working directory or [__file__] is absolute, the weights
    path is the script directory, one separator and
    [model/mobilenet_weights.h5]; only when the script directory is made of
    separators alone (the script sits in the root directory) no separator
    is added, so that the path never holds a doubled separator at the
    joint. *)
Theorem weights_file_joint (P : process) :
  isabs (cwd P) = true \/ isabs (file P) = true ->
  let dir := script_directory P in
  (forallb is_sep (chars dir) = false ->
   weights_file P = dir ++ "/model/mobilenet_weights.h5"
   /\ endswith_sep dir = false)
  /\ (forallb is_sep (chars dir) = true ->
      weights_file P = dir ++ "model/mobilenet_weights.h5"
      /\ endswith_sep dir = true).
Proof.
  intros Habs dir.
  assert (Hdir : isabs dir = true).
  { unfold dir, script_directory. apply dirname_absolute.
    now apply abspath_absolute. }
  assert (Hne : dir <> "") by (intros E; rewrite E in Hdir; discriminate Hdir).
  assert (Hjoin : weights_file P
                  = dir ++ (if (String.eqb dir "" || endswith_sep dir)%bool
                            then "" else "/") ++ "model/mobilenet_weights.h5")
    by (unfold weights_file; apply join_model).
  apply String.eqb_neq in Hne. rewrite Hne in Hjoin. cbn [orb] in Hjoin.
  split; intros Hall.
  - destruct (endswith_sep dir) eqn:Hend.
    + apply dirname_end in Hend. fold (script_directory P) in Hend. fold dir in Hend.
      rewrite Hend in Hall. discriminate Hall.
    + now split.
  - assert (Hend : endswith_sep dir = true)
      by (apply all_sep_end; [now apply String.eqb_neq | exact Hall]).
    rewrite Hend in Hjoin. now split.
Qed.

End Separator.

(* ================================================================= *)
(** ** Sample runs of the further properties *)

Lemma prediction_failure_witness :
  let K1 : framework float :=
    answering (Returns tt) (Returns tt) (Throws "ResourceExhaustedError") in
  let K2 : framework float :=
    answering (Returns tt) (Returns tt) (Returns []) in
  (ends_with (run K1 one_argument) "ResourceExhaustedError"
   /\ printed (run K1 one_argument) = ""
   /\ calls (run K1 one_argument) = full_calls one_argument)
  /\ (ends_with (run K2 one_argument) "IndexError"
      /\ printed (run K2 one_argument) = ""
      /\ calls (run K2 one_argument) = full_calls one_argument).
Proof.
  intros K1 K2. split.
  - exact (proj1 (prediction_failure K1 one_argument "/opt/nima/run_nima.py"
                    "photo.png" tt tt eq_refl eq_refl eq_refl)
             "ResourceExhaustedError" eq_refl).
  - exact (proj2 (prediction_failure K2 one_argument "/opt/nima/run_nima.py"
                    "photo.png" tt tt eq_refl eq_refl eq_refl)
             eq_refl).
Defined.

Lemma one_comma_one_line_witness :
  status (run predicting_nan one_argument) = 0%Z
  /\ exists mean std : string,
       printed (run predicting_nan one_argument) = mean ++ "," ++ std ++ newline
       /\ count_char "," mean = 0%nat /\ count_char "," std = 0%nat
       /\ count_char "010" mean = 0%nat /\ count_char "010" std = 0%nat
       /\ count_char "," (printed (run predicting_nan one_argument)) = 1%nat
       /\ count_char "010" (printed (run predicting_nan one_argument)) = 1%nat.
Proof.
  assert (Hst : status (run predicting_nan one_argument) = 0%Z)
    by (vm_compute; reflexivity).
  split; [exact Hst|].
  exact (one_comma_one_line predicting_nan one_argument Hst).
Defined.

Lemma format_2f_nearest_witness :
  Prim2SF 0.125%float = S754_finite false 4503599627370496 (-55)
  /\ exists h : Z,
       float64.format_2f 0.125%float
       = float64.sign false ++ float64.decimal (h / 100) ++ "."
         ++ String (float64.digit (h / 10)) (String (float64.digit h) "")
       /\ (0 <= h)%Z
       /\ ((0 <= -55)%Z -> h = (100 * 4503599627370496 * 2 ^ (-55))%Z)
       /\ ((-55 < 0)%Z ->
           (2 * Z.abs (100 * 4503599627370496 - h * 2 ^ (- -55)) <= 2 ^ (- -55))%Z
           /\ ((2 * Z.abs (100 * 4503599627370496 - h * 2 ^ (- -55))
                = 2 ^ (- -55))%Z -> Z.even h = true)).
Proof.
  assert (Hx : Prim2SF 0.125%float = S754_finite false 4503599627370496 (-55))
    by (vm_compute; reflexivity).
  split; [exact Hx|].
  exact (format_2f_nearest 0.125%float false 4503599627370496 (-55) Hx).
Defined.

Lemma format_2f_injective_witness :
  Prim2SF 0.125%float = S754_finite false 4503599627370496 (-55)
  /\ Prim2SF 0.12%float = S754_finite false 8646911284551352 (-56)
  /\ float64.format_2f 0.125%float = float64.format_2f 0.12%float
  /\ false = false
  /\ float64.hundredths 4503599627370496 (-55)
     = float64.hundredths 8646911284551352 (-56).
Proof.
  assert (Hx : Prim2SF 0.125%float = S754_finite false 4503599627370496 (-55))
    by (vm_compute; reflexivity).
  assert (Hy : Prim2SF 0.12%float = S754_finite false 8646911284551352 (-56))
    by (vm_compute; reflexivity).
  assert (E : float64.format_2f 0.125%float = float64.format_2f 0.12%float)
    by (vm_compute; reflexivity).
  split; [exact Hx|]. split; [exact Hy|]. split; [exact E|].
  exact (format_2f_injective 0.125%float 0.12%float false false
           4503599627370496 8646911284551352 (-55) (-56) Hx Hy E).
Defined.

Lemma weights_file_joint_witness :
  (isabs (cwd one_argument) = true \/ isabs (file one_argument) = true)
  /\ forallb is_sep (chars (script_directory one_argument)) = false
  /\ weights_file one_argument = "/opt/nima" ++ "/model/mobilenet_weights.h5"
  /\ endswith_sep (script_directory one_argument) = false.
Proof.
  assert (Habs : isabs (cwd one_argument) = true \/ isabs (file one_argument) = true)
    by (left; reflexivity).
  assert (Hall : forallb is_sep (chars (script_directory one_argument)) = false)
    by reflexivity.
  split; [exact Habs|]. split; [exact Hall|].
  exact (proj1 (weights_file_joint one_argument Habs) Hall).
Defined.
